(** * LearnSTL, Algorithms/Exercises.cpp: the [BinarySearch] exercise

    A shallow embedding of the recursive lower-bound search of
    [src/Algorithms/Exercises.cpp] (lines 606-657) and the properties its
    specification states about it.

    Iterators are modelled as integer positions into a memory that may or
    may not hold an element at a position; dereferencing a position that
    holds none is undefined behaviour.  Every run is instrumented with the
    invocations made and the positions dereferenced, so that statements
    about what the code reads and which sub-ranges it recurses on can be
    made about the code itself. *)

From Stdlib Require Import String ZArith List Sorted Lia Bool.
Import ListNotations.
Local Open Scope Z_scope.

(** ** [unsigned int]

    [current_distance] and [middle] are [unsigned int], 32 bits wide on the
    platforms the project builds for: the signed result of [std::distance]
    is reduced modulo [2^32] when it is stored. *)
Module UInt.

Definition bits : Z := 32.
Definition modulus : Z := 2 ^ bits.

(** Conversion of a (signed, wide) integer to [unsigned int]. *)
Definition of_Z (z : Z) : Z := z mod modulus.

End UInt.

(** ** Instrumented runs *)

(** What a run does that can be observed from outside: entering an
    invocation with its two iterator arguments, and dereferencing. *)
Inductive event : Type :=
| Call (first last : Z)
| Deref (p : Z).

(** A run either returns an iterator or hits undefined behaviour. *)
Inductive outcome : Type :=
| Ret (p : Z)
| Undefined.

Definition run : Type := (list event * outcome)%type.

Definition result (r : run) : outcome := snd r.

(** Positions dereferenced during a run, in order. *)
Fixpoint reads (tr : list event) : list Z :=
  match tr with
  | [] => []
  | Deref p :: tr' => p :: reads tr'
  | Call _ _ :: tr' => reads tr'
  end.

(** Argument pairs of the invocations made during a run, in order. *)
Fixpoint calls (tr : list event) : list (Z * Z) :=
  match tr with
  | [] => []
  | Call f l :: tr' => (f, l) :: calls tr'
  | Deref _ :: tr' => calls tr'
  end.

(** Prefix a (possibly unfinished) run with one event. *)
Definition logged (e : event) (r : option run) : option run :=
  match r with
  | Some (tr, o) => Some (e :: tr, o)
  | None => None
  end.

Section Search.

(** The element type and its [operator>=]. *)
Variable T : Type.
Variable ge : T -> T -> bool.

(** [a < b] in the total order is the failure of [a >= b]. *)
Definition lt (a b : T) : bool := negb (ge a b).

(** The storage the iterators point into: [None] where there is no
    element to read (in particular at the end of a container). *)
Definition memory : Type := Z -> option T.

(** [*p], continuing with [k] on the element read. *)
Definition deref (mem : memory) (p : Z) (k : T -> option run) : option run :=
  match mem p with
  | Some x => logged (Deref p) (k x)
  | None => Some ([Deref p], Undefined)
  end.

Definition ret (p : Z) : option run := Some ([], Ret p).

(** [BinarySearch(first, last, value)], with a bound on the depth of the
    recursion; [None] when the bound is reached.  [std::distance(first,
    last)] is [last - first], [std::advance(middle_it, middle)] is
    [first + middle]; the [return first] that closes the source function
    cannot be reached and has no counterpart here. *)
Fixpoint BinarySearch_fuel (fuel : nat) (mem : memory)
         (first last : Z) (value : T) : option run :=
  match fuel with
  | O => None
  | S fuel' =>
      logged (Call first last)
        (let current_distance := UInt.of_Z (last - first) in
         if current_distance <=? 1 then
           deref mem first (fun x =>
             if ge x value then ret first else ret last)
         else
           let middle := current_distance / 2 in
           let middle_it := first + middle in
           deref mem middle_it (fun current_element =>
             if ge current_element value
             then BinarySearch_fuel fuel' mem first middle_it value
             else BinarySearch_fuel fuel' mem middle_it last value))
  end.

(** The depth the recursion can reach on a range: the truncated distance
    is at least halved by every call. *)
Definition recursion_depth (first last : Z) : nat :=
  S (Z.to_nat (Z.log2_up (UInt.of_Z (last - first)))).

Definition BinarySearch (mem : memory) (first last : Z) (value : T)
  : option run :=
  BinarySearch_fuel (recursion_depth first last) mem first last value.

(** *** The runs of the code, as a relation

    [Runs mem value first last tr o]: the invocation
    [BinarySearch(first, last, value)] performs the events [tr] and ends
    in [o].  One constructor per path through the function body. *)
Inductive Runs (mem : memory) (value : T)
  : Z -> Z -> list event -> outcome -> Prop :=
| Runs_base first last x :
    UInt.of_Z (last - first) <= 1 ->
    mem first = Some x ->
    Runs mem value first last [Call first last; Deref first]
         (Ret (if ge x value then first else last))
| Runs_base_undefined first last :
    UInt.of_Z (last - first) <= 1 ->
    mem first = None ->
    Runs mem value first last [Call first last; Deref first] Undefined
| Runs_left first last x tr o :
    1 < UInt.of_Z (last - first) ->
    mem (first + UInt.of_Z (last - first) / 2) = Some x ->
    ge x value = true ->
    Runs mem value first (first + UInt.of_Z (last - first) / 2) tr o ->
    Runs mem value first last
         (Call first last :: Deref (first + UInt.of_Z (last - first) / 2) :: tr) o
| Runs_right first last x tr o :
    1 < UInt.of_Z (last - first) ->
    mem (first + UInt.of_Z (last - first) / 2) = Some x ->
    ge x value = false ->
    Runs mem value (first + UInt.of_Z (last - first) / 2) last tr o ->
    Runs mem value first last
         (Call first last :: Deref (first + UInt.of_Z (last - first) / 2) :: tr) o
| Runs_middle_undefined first last :
    1 < UInt.of_Z (last - first) ->
    mem (first + UInt.of_Z (last - first) / 2) = None ->
    Runs mem value first last
         [Call first last; Deref (first + UInt.of_Z (last - first) / 2)] Undefined.

(** *** Preconditions and contracts *)

(** [[first, last)] is a range of the memory: every position of it holds
    an element. *)
Definition valid_range (mem : memory) (first last : Z) : Prop :=
  forall p, first <= p < last -> mem p <> None.

(** The elements of [[first, last)] ascend. *)
Definition sorted (mem : memory) (first last : Z) : Prop :=
  forall i j x y,
    first <= i -> i <= j -> j < last ->
    mem i = Some x -> mem j = Some y -> ge y x = true.

(** The element at [p] is [>= value]. *)
Definition ge_at (mem : memory) (value : T) (p : Z) : Prop :=
  exists x, mem p = Some x /\ ge x value = true.

(** Every element of [[first, p)] is [< value]. *)
Definition lt_before (mem : memory) (value : T) (first p : Z) : Prop :=
  forall q x, first <= q < p -> mem q = Some x -> lt x value = true.

(** The lower-bound contract for a returned position [p]. *)
Definition lower_bound (mem : memory) (first last : Z) (value : T) (p : Z)
  : Prop :=
  first <= p <= last /\
  (p = last \/ ge_at mem value p) /\
  lt_before mem value first p.

(** [p] is the leftmost position of [[first, last)] whose element is
    [>= value]. *)
Definition leftmost_ge (mem : memory) (first last : Z) (value : T) (p : Z)
  : Prop :=
  first <= p < last /\ ge_at mem value p /\ lt_before mem value first p.

(** Two memories hold the same elements on [[first, last)], and at
    [first] when the range is empty. *)
Definition same_elements (mem mem' : memory) (first last : Z) : Prop :=
  forall p, first <= p -> p < last \/ p = first -> mem p = mem' p.

(** *** The recursive step as the specification words it

    Follows the specification, not the code: the midpoint is the span
    length halved, the search continues on [[first, midpoint]] (midpoint
    included, that is up to the position after it) when the midpoint
    element is [>= value] and on [(midpoint, last)] (from the position
    after the midpoint) otherwise. *)
Definition spec_step (mem : memory) (first last : Z) (value : T)
  : option run :=
  logged (Call first last)
    (let midpoint := first + (last - first) / 2 in
     deref mem midpoint (fun x =>
       if ge x value
       then BinarySearch mem first (midpoint + 1) value
       else BinarySearch mem (midpoint + 1) last value)).

End Search.

Arguments deref {T} mem p k.
Arguments BinarySearch_fuel {T} ge fuel mem first last value.
Arguments BinarySearch {T} ge mem first last value.
Arguments lt {T} ge a b.
Arguments Runs {T} ge mem value _ _ _ _.
Arguments valid_range {T} mem first last.
Arguments sorted {T} ge mem first last.
Arguments ge_at {T} ge mem value p.
Arguments lt_before {T} ge mem value first p.
Arguments lower_bound {T} ge mem first last value p.
Arguments leftmost_ge {T} ge mem first last value p.
Arguments same_elements {T} mem mem' first last.
Arguments spec_step {T} ge mem first last value.

(** Every position dereferenced lies in [[first, last)]. *)
Definition reads_within (first last : Z) (tr : list event) : Prop :=
  Forall (fun p => first <= p < last) (reads tr).

(** Every invocation made was given a non-empty range. *)
Definition calls_nonempty (tr : list event) : Prop :=
  Forall (fun c => fst c < snd c) (calls tr).

(** The distance of an invocation's range as the code sees it. *)
Definition current_distance (c : Z * Z) : Z := UInt.of_Z (snd c - fst c).


(** ** Concrete memories *)

(** A [std::vector] whose elements are those of [l]: positions
    [0 .. length l - 1] hold elements, [length l] is [end()]. *)
Definition vector {T : Type} (l : list T) : memory T :=
  fun p => if p <? 0 then None else nth_error l (Z.to_nat p).

(** The range of the integers [0, 1, ..., n-1], as an [iota] view. *)
Definition iota (n : Z) : memory Z :=
  fun p => if (0 <=? p) && (p <? n) then Some p else None.

(** [n] elements: a single [1] followed by [2]s. *)
Definition one_then_twos (n : Z) : memory Z :=
  fun p => if (0 <=? p) && (p <? n) then Some (if p =? 0 then 1 else 2) else None.

Definition exercise3 : list Z := [1; 3; 4; 6; 7; 9; 10].

(** ** The rest of the file: the callers and the helpers

    The exercises are [void] functions that work on local vectors.  Where
    one is embedded its local vectors are taken as arguments, so that what
    is proved holds for the statements of the body and not for one input;
    the function of the source is the instance at the values it
    initialises them with. *)

(** [int]: 32 bits, signed; leaving its range is undefined behaviour. *)
Module Int.

Definition min : Z := - 2 ^ 31.
Definition max : Z := 2 ^ 31 - 1.

Definition in_range (z : Z) : bool := (min <=? z) && (z <=? max).

End Int.

(** How a statement sequence ends: normally with a value, by throwing
    [std::out_of_range], or in undefined behaviour. *)
Inductive completion (A : Type) : Type :=
| Done (a : A)
| OutOfRange
| UndefinedBehaviour.

Arguments Done {A} a.
Arguments OutOfRange {A}.
Arguments UndefinedBehaviour {A}.

(** [v.at(i)] for an [int] index that is not negative. *)
Definition at_ {A : Type} (v : list A) (i : Z) : option A :=
  nth_error v (Z.to_nat i).

(** *** [Misc::Exercise3], the caller of [BinarySearch] *)

(** What one round of the loop prints: the element found, or the text
    that says [v.end()] was returned. *)
Inductive line : Type :=
| Element (x : Z)
| ReturnedEnd.

(** The body of the loop for the probe [i]: search, compare the position
    with [v.end()], dereference it otherwise. *)
Definition Exercise3_probe (v : list Z) (i : Z) : completion line :=
  match BinarySearch Z.geb (vector v) 0 (Z.of_nat (length v)) i with
  | Some (_, Ret pos) =>
      if pos =? Z.of_nat (length v) then Done ReturnedEnd
      else match vector v pos with
           | Some x => Done (Element x)
           | None => UndefinedBehaviour
           end
  | _ => UndefinedBehaviour
  end.

(** [for (int i = ...; i < 20; i++)], [rounds] rounds from [i] on. *)
Fixpoint Exercise3_loop (v : list Z) (rounds : nat) (i : Z)
  : completion (list line) :=
  match rounds with
  | O => Done []
  | S rounds' =>
      match Exercise3_probe v i with
      | Done l =>
          match Exercise3_loop v rounds' (i + 1) with
          | Done ls => Done (l :: ls)
          | OutOfRange => OutOfRange
          | UndefinedBehaviour => UndefinedBehaviour
          end
      | OutOfRange => OutOfRange
      | UndefinedBehaviour => UndefinedBehaviour
      end
  end.

Definition Exercise3_on (v : list Z) : completion (list line) :=
  Exercise3_loop v 20 0.

Definition Exercise3 : completion (list line) := Exercise3_on exercise3.

(** The line for the first element of [v] that is [>= i], front to back. *)
Definition first_ge_line (v : list Z) (i : Z) : line :=
  match find (fun x => x >=? i) v with
  | Some x => Element x
  | None => ReturnedEnd
  end.

(** *** [PrintTable] *)

Definition tab : string := String (Ascii.ascii_of_nat 9) EmptyString.
Definition endl : string := String (Ascii.ascii_of_nat 10) EmptyString.

(** What has been written to [std::cout], piece by piece, and how the
    function ended. *)
Definition printed : Type := (list string * completion unit)%type.

Definition print_first (out : list string) (r : option printed)
  : option printed :=
  match r with
  | Some (out', c) => Some (out ++ out', c)
  | None => None
  end.

(** The loop of [PrintTable] from [i] on.  The operands of [<<] are
    evaluated left to right, each after what stands before it has been
    written, so that a throwing [v2.at(i)] comes after [v1.at(i)] and the
    tab are out.  [None] when the bound on the rounds is reached. *)
Fixpoint PrintTable_loop (fuel : nat) (v1 v2 : list string) (i : Z)
  : option printed :=
  match fuel with
  | O => None
  | S fuel' =>
      if i <? Z.of_nat (length v1) then
        match at_ v1 i with
        | None => Some ([], OutOfRange)
        | Some a =>
            match at_ v2 i with
            | None => Some ([a; tab], OutOfRange)
            | Some b =>
                if i =? Int.max
                then Some ([a; tab; b; endl], UndefinedBehaviour)
                else print_first [a; tab; b; endl]
                       (PrintTable_loop fuel' v1 v2 (i + 1))
            end
        end
      else Some ([], Done tt)
  end.

Definition PrintTable (v1 v2 : list string) : option printed :=
  PrintTable_loop (S (length v1)) v1 v2 0.

(** One full row of the table. *)
Definition row (ab : string * string) : list string :=
  [fst ab; tab; snd ab; endl].

(** *** [ContainerAlgorithm::Exercise16] *)

(** [a - b] on [int]. *)
Definition int_sub (a b : Z) : completion Z :=
  if Int.in_range (a - b) then Done (a - b) else UndefinedBehaviour.

(** The loop over the wall points from [i] on: [operator[]] is not
    checked, so reading [lengths] past its end is undefined behaviour;
    [/] on [int] truncates towards zero.  [None] when the bound on the
    rounds is reached. *)
Fixpoint Exercise16_loop (fuel : nat) (wallPoints lengths : list Z)
         (i accumulator : Z) : option (completion Z) :=
  match fuel with
  | O => None
  | S fuel' =>
      if i <? Z.of_nat (length wallPoints) then
        match nth_error wallPoints (Z.to_nat i),
              nth_error lengths (Z.to_nat i) with
        | Some w, Some l =>
            match int_sub w (Z.quot l 4) with
            | Done d =>
                if i =? Int.max then Some UndefinedBehaviour
                else Exercise16_loop fuel' wallPoints lengths (i + 1)
                                     (Z.max accumulator d)
            | _ => Some UndefinedBehaviour
            end
        | _, _ => Some UndefinedBehaviour
        end
      else Some (Done accumulator)
  end.

(** The body of [Exercise16] up to [result], for the locals [h],
    [wallPoints] and [lengths]. *)
Definition Exercise16_on (h : Z) (wallPoints lengths : list Z)
  : option (completion Z) :=
  match Exercise16_loop (S (length wallPoints)) wallPoints lengths 0 0 with
  | Some (Done accumulator) =>
      match int_sub accumulator h with
      | Done d => Some (Done (Z.max 0 d))
      | _ => Some UndefinedBehaviour
      end
  | r => r
  end.

Definition Exercise16 : option (completion Z) :=
  Exercise16_on 6 [22; 33; 19; 74] [2; 3; 5; 6].

(** How far a poster's lower end is above a ladder of height [h]. *)
Definition reach (h : Z) (wl : Z * Z) : Z := fst wl - Z.quot (snd wl) 4 - h.

(** *** [ContainerAlgorithm::Exercise8] *)

(** [std::find(v.begin(), v.end(), x)], as the index it stops at:
    [length v] is [v.end()]. *)
Fixpoint std_find (v : list Z) (x : Z) : nat :=
  match v with
  | [] => O
  | y :: v' => if y =? x then O else S (std_find v' x)
  end.

(** [std::copy_if(first, last, std::back_inserter(dst), pred)]. *)
Fixpoint copy_if_back {A : Type} (pred : A -> bool) (src dst : list A)
  : list A :=
  match src with
  | [] => dst
  | x :: src' => copy_if_back pred src' (if pred x then dst ++ [x] else dst)
  end.

(** The vector [v3] that [Exercise8] prints, for the locals [v1], [v2]. *)
Definition Exercise8_on (v1 v2 : list Z) : list Z :=
  copy_if_back (fun x => Nat.eqb (std_find v2 x) (length v2)) v1 [].

Definition Exercise8 : list Z :=
  Exercise8_on [1; 2; 3; 4; 5; 6; 7; 8; 9] [4; 5; 6; 7; 8; 9; 10; 11; 12].

(** ** Arithmetic of [unsigned int] distances *)

Lemma modulus_pos : 0 < UInt.modulus.
Proof. reflexivity. Qed.

Lemma of_Z_range (z : Z) : 0 <= UInt.of_Z z < UInt.modulus.
Proof. unfold UInt.of_Z. apply Z.mod_pos_bound, modulus_pos. Qed.

Lemma of_Z_small (z : Z) : 0 <= z < UInt.modulus -> UInt.of_Z z = z.
Proof. intros H. unfold UInt.of_Z. now apply Z.mod_small. Qed.

Lemma of_Z_le (z : Z) : 0 <= z -> UInt.of_Z z <= z.
Proof. intros H. unfold UInt.of_Z. apply Z.mod_le; [assumption | apply modulus_pos]. Qed.

(** Taking [k] elements off a range takes [k] off its truncated distance,
    as long as [k] does not exceed it. *)
Lemma of_Z_sub (z k : Z) :
  0 <= k <= UInt.of_Z z -> UInt.of_Z (z - k) = UInt.of_Z z - k.
Proof.
  intros Hk. pose proof (of_Z_range z) as Hr. unfold UInt.of_Z in *.
  rewrite (Z.div_mod z UInt.modulus) at 1 by (pose proof modulus_pos; lia).
  replace (UInt.modulus * (z / UInt.modulus) + z mod UInt.modulus - k)
    with ((z mod UInt.modulus - k) + (z / UInt.modulus) * UInt.modulus) by ring.
  rewrite Z.mod_add by (pose proof modulus_pos; lia).
  apply Z.mod_small. lia.
Qed.

Lemma half_bounds (c : Z) : 1 < c -> 1 <= c / 2 < c.
Proof.
  intros Hc. split.
  - apply Z.div_le_lower_bound; lia.
  - apply Z.div_lt; lia.
Qed.

Lemma log2_up_half (c : Z) :
  1 < c -> Z.log2_up (c / 2) < Z.log2_up c /\ Z.log2_up (c - c / 2) < Z.log2_up c.
Proof.
  intros Hc.
  pose proof (half_bounds c Hc) as Hh.
  pose proof (Z.log2_up_spec c Hc) as [_ Hup].
  pose proof (Z.log2_up_pos c Hc) as Hpos.
  assert (Hpow : 2 ^ Z.log2_up c = 2 * 2 ^ (Z.log2_up c - 1)).
  { rewrite <- Z.pow_succ_r by lia. f_equal. lia. }
  assert (Hdm := Z.div_mod c 2 ltac:(lia)).
  assert (Hm := Z.mod_pos_bound c 2 ltac:(lia)).
  assert (Hceil : c - c / 2 <= 2 ^ (Z.log2_up c - 1)) by lia.
  split.
  - enough (Z.log2_up (c / 2) <= Z.log2_up c - 1) by lia.
    apply Z.log2_up_le_pow2; lia.
  - enough (Z.log2_up (c - c / 2) <= Z.log2_up c - 1) by lia.
    apply Z.log2_up_le_pow2; lia.
Qed.

(** The midpoint of a non-empty range on which the code recurses lies
    strictly inside it: the truncated distance never exceeds the distance. *)
Lemma middle_inside (first last : Z) :
  first < last -> 1 < UInt.of_Z (last - first) ->
  first < first + UInt.of_Z (last - first) / 2 < last.
Proof.
  intros Hne Hc.
  pose proof (half_bounds _ Hc) as Hh.
  pose proof (of_Z_le (last - first) ltac:(lia)) as Hle.
  lia.
Qed.

Lemma of_Z_left (first last : Z) :
  1 < UInt.of_Z (last - first) ->
  UInt.of_Z (first + UInt.of_Z (last - first) / 2 - first)
  = UInt.of_Z (last - first) / 2.
Proof.
  intros Hc.
  pose proof (half_bounds _ Hc) as Hh.
  pose proof (of_Z_range (last - first)) as Hr.
  replace (first + UInt.of_Z (last - first) / 2 - first)
    with (UInt.of_Z (last - first) / 2) by ring.
  apply of_Z_small. lia.
Qed.

Lemma of_Z_right (first last : Z) :
  1 < UInt.of_Z (last - first) ->
  UInt.of_Z (last - (first + UInt.of_Z (last - first) / 2))
  = UInt.of_Z (last - first) - UInt.of_Z (last - first) / 2.
Proof.
  intros Hc.
  pose proof (half_bounds _ Hc) as Hh.
  replace (last - (first + UInt.of_Z (last - first) / 2))
    with (last - first - UInt.of_Z (last - first) / 2) by ring.
  apply of_Z_sub. lia.
Qed.

Lemma depth_left (first last : Z) :
  1 < UInt.of_Z (last - first) ->
  (recursion_depth first (first + UInt.of_Z (last - first) / 2)
   < recursion_depth first last)%nat.
Proof.
  intros Hc. unfold recursion_depth. rewrite of_Z_left by assumption.
  pose proof (log2_up_half _ Hc) as [Hl _].
  pose proof (Z.log2_up_nonneg (UInt.of_Z (last - first) / 2)).
  lia.
Qed.

Lemma depth_right (first last : Z) :
  1 < UInt.of_Z (last - first) ->
  (recursion_depth (first + UInt.of_Z (last - first) / 2) last
   < recursion_depth first last)%nat.
Proof.
  intros Hc. unfold recursion_depth. rewrite of_Z_right by assumption.
  pose proof (log2_up_half _ Hc) as [_ Hr].
  pose proof (Z.log2_up_nonneg
                (UInt.of_Z (last - first) - UInt.of_Z (last - first) / 2)).
  lia.
Qed.



(** ** The code and its runs *)

Section Facts.

Context {T : Type}.
Variable ge : T -> T -> bool.
Variable mem : memory T.
Variable value : T.

Lemma logged_Some (e : event) (r : option run) (tr : list event) (o : outcome) :
  logged e r = Some (tr, o) ->
  exists tr', tr = e :: tr' /\ r = Some (tr', o).
Proof.
  destruct r as [[tr' o'] |]; cbn; intros H; inversion H; subst; eauto.
Qed.

(** One unfolding of the body, whatever the fuel left for the calls. *)
Lemma BinarySearch_fuel_S (n : nat) (first last : Z) :
  BinarySearch_fuel ge (S n) mem first last value =
  logged (Call first last)
    (if UInt.of_Z (last - first) <=? 1 then
       deref mem first (fun x => if ge x value then ret first else ret last)
     else
       deref mem (first + UInt.of_Z (last - first) / 2) (fun x =>
         if ge x value
         then BinarySearch_fuel ge n mem first
                (first + UInt.of_Z (last - first) / 2) value
         else BinarySearch_fuel ge n mem
                (first + UInt.of_Z (last - first) / 2) last value)).
Proof. reflexivity. Qed.

(** Whatever the code computes is a run. *)
Lemma BinarySearch_fuel_Runs (n : nat) :
  forall first last tr o,
    BinarySearch_fuel ge n mem first last value = Some (tr, o) ->
    Runs ge mem value first last tr o.
Proof.
  induction n as [| n IH]; intros first last tr o H; [discriminate |].
  rewrite BinarySearch_fuel_S in H.
  apply logged_Some in H as (tr1 & -> & H).
  destruct (UInt.of_Z (last - first) <=? 1) eqn:Hc.
  - apply Z.leb_le in Hc. unfold deref in H.
    destruct (mem first) as [x |] eqn:Hx.
    + apply logged_Some in H as (tr2 & -> & H).
      destruct (ge x value) eqn:Hg; inversion H; subst.
      * pose proof (Runs_base T ge mem value first last x Hc Hx) as R.
        now rewrite Hg in R.
      * pose proof (Runs_base T ge mem value first last x Hc Hx) as R.
        now rewrite Hg in R.
    + inversion H; subst. now apply Runs_base_undefined.
  - apply Z.leb_gt in Hc. unfold deref in H.
    destruct (mem (first + UInt.of_Z (last - first) / 2)) as [x |] eqn:Hx.
    + apply logged_Some in H as (tr2 & -> & H).
      destruct (ge x value) eqn:Hg.
      * eapply Runs_left; eauto.
      * eapply Runs_right; eauto.
    + inversion H; subst. now apply Runs_middle_undefined.
Qed.

(** Every run is what the code computes, as soon as the fuel reaches the
    depth of the range. *)
Lemma Runs_BinarySearch_fuel (first last : Z) (tr : list event) (o : outcome) :
  Runs ge mem value first last tr o ->
  forall n, (recursion_depth first last <= n)%nat ->
            BinarySearch_fuel ge n mem first last value = Some (tr, o).
Proof.
  induction 1 as [first last x Hc Hx | first last Hc Hx
                 | first last x tr o Hc Hx Hg R IH
                 | first last x tr o Hc Hx Hg R IH
                 | first last Hc Hx];
    intros n Hn;
    (destruct n as [| n]; [unfold recursion_depth in Hn; lia |]);
    rewrite BinarySearch_fuel_S; unfold deref.
  - apply Z.leb_le in Hc. rewrite Hc, Hx. now destruct (ge x value).
  - apply Z.leb_le in Hc. now rewrite Hc, Hx.
  - pose proof (depth_left _ _ Hc).
    apply Z.leb_gt in Hc. rewrite Hc, Hx, Hg, IH by lia. reflexivity.
  - pose proof (depth_right _ _ Hc).
    apply Z.leb_gt in Hc. rewrite Hc, Hx, Hg, IH by lia. reflexivity.
  - apply Z.leb_gt in Hc. now rewrite Hc, Hx.
Qed.

(** Fuel up to the depth of the range is enough for a result. *)
Lemma BinarySearch_fuel_total (n : nat) :
  forall first last,
    (recursion_depth first last <= n)%nat ->
    exists r, BinarySearch_fuel ge n mem first last value = Some r.
Proof.
  induction n as [| n IH]; intros first last Hn;
    [unfold recursion_depth in Hn; lia |].
  rewrite BinarySearch_fuel_S; unfold deref.
  destruct (UInt.of_Z (last - first) <=? 1) eqn:Hc.
  - destruct (mem first) as [x |]; [| cbn; eauto].
    destruct (ge x value); cbn; eauto.
  - apply Z.leb_gt in Hc.
    destruct (mem (first + UInt.of_Z (last - first) / 2)) as [x |];
      [| cbn; eauto].
    pose proof (depth_left _ _ Hc). pose proof (depth_right _ _ Hc).
    destruct (ge x value).
    + destruct (IH first (first + UInt.of_Z (last - first) / 2) ltac:(lia))
        as [[tr o] ->]. cbn. eauto.
    + destruct (IH (first + UInt.of_Z (last - first) / 2) last ltac:(lia))
        as [[tr o] ->]. cbn. eauto.
Qed.

Lemma BinarySearch_total (first last : Z) :
  exists tr o, BinarySearch ge mem first last value = Some (tr, o).
Proof.
  destruct (BinarySearch_fuel_total (recursion_depth first last) first last
              (Nat.le_refl _)) as [[tr o] H].
  unfold BinarySearch. eauto.
Qed.

Lemma BinarySearch_Runs (first last : Z) (tr : list event) (o : outcome) :
  BinarySearch ge mem first last value = Some (tr, o) <->
  Runs ge mem value first last tr o.
Proof.
  split.
  - apply BinarySearch_fuel_Runs.
  - intros R. now apply (Runs_BinarySearch_fuel _ _ _ _ R).
Qed.

(** More fuel than the depth of the range changes nothing. *)
Lemma BinarySearch_fuel_enough (n : nat) (first last : Z) :
  (recursion_depth first last <= n)%nat ->
  BinarySearch_fuel ge n mem first last value
  = BinarySearch ge mem first last value.
Proof.
  intros Hn. destruct (BinarySearch_total first last) as (tr & o & H).
  rewrite H. apply BinarySearch_Runs in H.
  now apply (Runs_BinarySearch_fuel _ _ _ _ H).
Qed.

(** The defining equation of [BinarySearch]: the body of the source
    function, with the recursive calls as calls of [BinarySearch]. *)
Lemma BinarySearch_unfold (first last : Z) :
  BinarySearch ge mem first last value =
  logged (Call first last)
    (if UInt.of_Z (last - first) <=? 1 then
       deref mem first (fun x => if ge x value then ret first else ret last)
     else
       deref mem (first + UInt.of_Z (last - first) / 2) (fun x =>
         if ge x value
         then BinarySearch ge mem first
                (first + UInt.of_Z (last - first) / 2) value
         else BinarySearch ge mem
                (first + UInt.of_Z (last - first) / 2) last value)).
Proof.
  unfold BinarySearch at 1. unfold recursion_depth at 1.
  rewrite BinarySearch_fuel_S.
  destruct (UInt.of_Z (last - first) <=? 1) eqn:Hc; [reflexivity |].
  apply Z.leb_gt in Hc.
  pose proof (depth_left _ _ Hc) as Hl. pose proof (depth_right _ _ Hc) as Hr.
  unfold recursion_depth at 2 in Hl. unfold recursion_depth at 2 in Hr.
  rewrite !BinarySearch_fuel_enough by lia. reflexivity.
Qed.

End Facts.

(** ** What every run satisfies *)

Section RunProperties.

Context {T : Type}.
Variable ge : T -> T -> bool.
Variable value : T.

Lemma valid_range_sub (mem : memory T) (first last first' last' : Z) :
  valid_range mem first last -> first <= first' -> last' <= last ->
  valid_range mem first' last'.
Proof. intros V Hf Hl p Hp. apply V. lia. Qed.

Lemma sorted_sub (mem : memory T) (first last first' last' : Z) :
  sorted ge mem first last -> first <= first' -> last' <= last ->
  sorted ge mem first' last'.
Proof.
  intros S Hf Hl i j x y Hi Hij Hj. apply S; lia.
Qed.

Lemma reads_within_sub (first last first' last' : Z) (tr : list event) :
  reads_within first' last' tr -> first <= first' -> last' <= last ->
  reads_within first last tr.
Proof.
  unfold reads_within. intros H Hf Hl.
  eapply Forall_impl; [| exact H]. cbn. intros p Hp. lia.
Qed.

(** On a non-empty range only positions of the range are dereferenced,
    whatever the memory holds. *)
Lemma Runs_reads_within (mem : memory T) (first last : Z)
      (tr : list event) (o : outcome) :
  Runs ge mem value first last tr o ->
  first < last -> reads_within first last tr.
Proof.
  induction 1 as [first last x Hc Hx | first last Hc Hx
                 | first last x tr o Hc Hx Hg R IH
                 | first last x tr o Hc Hx Hg R IH
                 | first last Hc Hx];
    intros Hne; unfold reads_within; cbn.
  - repeat constructor; lia.
  - repeat constructor; lia.
  - pose proof (middle_inside _ _ Hne Hc) as Hm.
    constructor; [lia |].
    apply (reads_within_sub first last first
             (first + UInt.of_Z (last - first) / 2)); [apply IH |..]; lia.
  - pose proof (middle_inside _ _ Hne Hc) as Hm.
    constructor; [lia |].
    apply (reads_within_sub first last
             (first + UInt.of_Z (last - first) / 2) last); [apply IH |..]; lia.
  - pose proof (middle_inside _ _ Hne Hc) as Hm.
    repeat constructor; lia.
Qed.

(** From a non-empty range, every invocation is on a non-empty range. *)
Lemma Runs_calls_nonempty (mem : memory T) (first last : Z)
      (tr : list event) (o : outcome) :
  Runs ge mem value first last tr o ->
  first < last -> calls_nonempty tr.
Proof.
  induction 1 as [first last x Hc Hx | first last Hc Hx
                 | first last x tr o Hc Hx Hg R IH
                 | first last x tr o Hc Hx Hg R IH
                 | first last Hc Hx];
    intros Hne; unfold calls_nonempty; cbn;
    try (pose proof (middle_inside _ _ Hne Hc) as Hm);
    constructor; cbn; try assumption; try constructor.
  - apply IH; lia.
  - apply IH; lia.
Qed.





(** On a non-empty range of the memory the run returns a position of
    [[first, last]]. *)
Lemma Runs_returns (mem : memory T) (first last : Z)
      (tr : list event) (o : outcome) :
  Runs ge mem value first last tr o ->
  first < last -> valid_range mem first last ->
  exists p, o = Ret p /\ first <= p <= last.
Proof.
  induction 1 as [first last x Hc Hx | first last Hc Hx
                 | first last x tr o Hc Hx Hg R IH
                 | first last x tr o Hc Hx Hg R IH
                 | first last Hc Hx];
    intros Hne V;
    try (pose proof (middle_inside _ _ Hne Hc) as Hm).
  - destruct (ge x value); eexists; split; try reflexivity; lia.
  - exfalso. apply (V first); [lia | assumption].
  - destruct IH as (p & -> & Hp); [lia | |].
    + apply (valid_range_sub mem first last); [assumption | lia | lia].
    + exists p. split; [reflexivity | lia].
  - destruct IH as (p & -> & Hp); [lia | |].
    + apply (valid_range_sub mem first last); [assumption | lia | lia].
    + exists p. split; [reflexivity | lia].
  - exfalso. apply (V (first + UInt.of_Z (last - first) / 2)); [lia | assumption].
Qed.

(** The outcome depends on the elements of the range only. *)
Lemma Runs_same_elements (mem mem' : memory T) (first last : Z)
      (tr : list event) (o : outcome) :
  Runs ge mem value first last tr o ->
  first <= last -> same_elements mem mem' first last ->
  Runs ge mem' value first last tr o.
Proof.
  induction 1 as [first last x Hc Hx | first last Hc Hx
                 | first last x tr o Hc Hx Hg R IH
                 | first last x tr o Hc Hx Hg R IH
                 | first last Hc Hx];
    intros Hle E.
  - apply Runs_base; [assumption |]. rewrite <- (E first); auto; lia.
  - apply Runs_base_undefined; [assumption |]. rewrite <- (E first); auto; lia.
  - assert (Hne : first < last).
    { destruct (Z.eq_dec first last) as [-> | ?]; [| lia].
      rewrite Z.sub_diag in Hc. cbn in Hc. lia. }
    pose proof (middle_inside _ _ Hne Hc) as Hm.
    eapply Runs_left; eauto.
    + rewrite <- E; [eassumption | lia | lia].
    + apply IH; [lia |]. intros p Hp Hq. apply E; lia.
  - assert (Hne : first < last).
    { destruct (Z.eq_dec first last) as [-> | ?]; [| lia].
      rewrite Z.sub_diag in Hc. cbn in Hc. lia. }
    pose proof (middle_inside _ _ Hne Hc) as Hm.
    eapply Runs_right; eauto.
    + rewrite <- E; [eassumption | lia | lia].
    + apply IH; [lia |]. intros p Hp Hq. apply E; lia.
  - assert (Hne : first < last).
    { destruct (Z.eq_dec first last) as [-> | ?]; [| lia].
      rewrite Z.sub_diag in Hc. cbn in Hc. lia. }
    pose proof (middle_inside _ _ Hne Hc) as Hm.
    apply Runs_middle_undefined; [assumption |].
    rewrite <- E; [assumption | lia | lia].
Qed.

(** *** Sorted ranges *)

Hypothesis ge_trans :
  forall a b c, ge a b = true -> ge b c = true -> ge a c = true.

(** In a sorted range, what comes after an element [>= value] is
    [>= value], and what comes before an element [< value] is [< value]. *)
Lemma sorted_ge_after (mem : memory T) (first last i j : Z) (x y : T) :
  sorted ge mem first last -> first <= i -> i <= j -> j < last ->
  mem i = Some x -> mem j = Some y ->
  ge x value = true -> ge y value = true.
Proof.
  intros S Hi Hij Hj Hx Hy Hg.
  apply (ge_trans y x value); [| assumption].
  apply (S i j); assumption.
Qed.

Lemma sorted_lt_before (mem : memory T) (first last i j : Z) (x y : T) :
  sorted ge mem first last -> first <= i -> i <= j -> j < last ->
  mem i = Some x -> mem j = Some y ->
  ge y value = false -> lt ge x value = true.
Proof.
  intros S Hi Hij Hj Hx Hy Hg. unfold lt.
  destruct (ge x value) eqn:Hxv; [| reflexivity].
  rewrite (sorted_ge_after mem first last i j x y) in Hg by assumption.
  discriminate.
Qed.

(** The search is a lower bound on every non-empty sorted range whose
    length an [unsigned int] holds. *)
Lemma Runs_lower_bound (mem : memory T) (first last : Z)
      (tr : list event) (o : outcome) :
  Runs ge mem value first last tr o ->
  first < last -> last - first < UInt.modulus ->
  valid_range mem first last -> sorted ge mem first last ->
  exists p, o = Ret p /\ lower_bound ge mem first last value p.
Proof.
  induction 1 as [first last x Hc Hx | first last Hc Hx
                 | first last x tr o Hc Hx Hg R IH
                 | first last x tr o Hc Hx Hg R IH
                 | first last Hc Hx];
    intros Hne Hsz V S;
    try (pose proof (middle_inside _ _ Hne Hc) as Hm).
  - rewrite of_Z_small in Hc by lia.
    destruct (ge x value) eqn:Hg; eexists; (split; [reflexivity |]).
    + split; [lia |]. split.
      * right. exists x. auto.
      * intros q y Hq. lia.
    + split; [lia |]. split; [now left |].
      intros q y Hq Hy. assert (q = first) by lia. subst q.
      rewrite Hx in Hy. inversion Hy; subst. unfold lt. now rewrite Hg.
  - exfalso. apply (V first); [lia | assumption].
  - destruct IH as (p & -> & Hp & Hor & Hbefore); [lia | lia | | |].
    + apply (valid_range_sub mem first last); [assumption | lia | lia].
    + apply (sorted_sub mem first last); [assumption | lia | lia].
    + exists p. split; [reflexivity |]. split; [lia |]. split; [| assumption].
      right. destruct Hor as [-> | Hor]; [| assumption]. exists x. auto.
  - destruct IH as (p & -> & Hp & Hor & Hbefore); [lia | lia | | |].
    + apply (valid_range_sub mem first last); [assumption | lia | lia].
    + apply (sorted_sub mem first last); [assumption | lia | lia].
    + exists p. split; [reflexivity |]. split; [lia |]. split; [assumption |].
      intros q y Hq Hy.
      destruct (Z_lt_le_dec q (first + UInt.of_Z (last - first) / 2)) as [Hlt | Hge].
      * apply (sorted_lt_before mem first last q
                 (first + UInt.of_Z (last - first) / 2) y x);
          auto; lia.
      * apply (Hbefore q y); [lia | assumption].
  - exfalso. apply (V (first + UInt.of_Z (last - first) / 2)); [lia | assumption].
Qed.

(** When the first element is already [>= value] the search returns
    [first], whatever the length of the range. *)
Lemma Runs_first (mem : memory T) (first last : Z)
      (tr : list event) (o : outcome) :
  Runs ge mem value first last tr o ->
  first < last -> valid_range mem first last -> sorted ge mem first last ->
  ge_at ge mem value first ->
  o = Ret first.
Proof.
  induction 1 as [first last x Hc Hx | first last Hc Hx
                 | first last x tr o Hc Hx Hg R IH
                 | first last x tr o Hc Hx Hg R IH
                 | first last Hc Hx];
    intros Hne V S (x0 & Hx0 & Hg0);
    try (pose proof (middle_inside _ _ Hne Hc) as Hm).
  - rewrite Hx in Hx0. inversion Hx0; subst. now rewrite Hg0.
  - congruence.
  - apply IH; [lia | | | exists x0; auto].
    + apply (valid_range_sub mem first last); [assumption | lia | lia].
    + apply (sorted_sub mem first last); [assumption | lia | lia].
  - exfalso.
    rewrite (sorted_ge_after mem first last first
               (first + UInt.of_Z (last - first) / 2) x0 x) in Hg
      by (assumption || lia).
    discriminate.
  - exfalso. apply (V (first + UInt.of_Z (last - first) / 2)); [lia | assumption].
Qed.

End RunProperties.

(** ** Concrete memories *)

Lemma Zgeb_trans (a b c : Z) :
  (a >=? b) = true -> (b >=? c) = true -> (a >=? c) = true.
Proof. rewrite !Z.geb_le. lia. Qed.

Lemma vector_valid {T : Type} (l : list T) :
  valid_range (vector l) 0 (Z.of_nat (length l)).
Proof.
  intros p Hp. unfold vector.
  destruct (p <? 0) eqn:Hn; [apply Z.ltb_lt in Hn; lia |].
  apply nth_error_Some. lia.
Qed.

Lemma StronglySorted_nth_error (l : list Z) :
  StronglySorted Z.le l ->
  forall i j x y, (i <= j)%nat ->
    nth_error l i = Some x -> nth_error l j = Some y -> x <= y.
Proof.
  induction 1 as [| a l S IH F]; intros i j x y Hij Hx Hy.
  - destruct i; discriminate.
  - destruct i as [| i], j as [| j]; cbn in Hx, Hy.
    + inversion Hx; inversion Hy; subst. lia.
    + inversion Hx; subst. apply nth_error_In in Hy.
      rewrite Forall_forall in F. now apply F.
    + lia.
    + apply (IH i j); [lia | assumption | assumption].
Qed.

Lemma vector_sorted (l : list Z) (first last : Z) :
  StronglySorted Z.le l -> sorted Z.geb (vector l) first last.
Proof.
  intros S i j x y Hi Hij Hj. unfold vector.
  destruct (i <? 0) eqn:Hin; [discriminate |].
  destruct (j <? 0) eqn:Hjn; [discriminate |].
  apply Z.ltb_ge in Hin. intros Hx Hy. apply Z.geb_le.
  apply (StronglySorted_nth_error l S (Z.to_nat i) (Z.to_nat j));
    [lia | assumption | assumption].
Qed.

Lemma iota_Some (n p x : Z) : iota n p = Some x -> x = p /\ 0 <= p < n.
Proof.
  unfold iota. destruct (0 <=? p) eqn:H0; [| discriminate].
  destruct (p <? n) eqn:Hn; [| discriminate].
  apply Z.leb_le in H0. apply Z.ltb_lt in Hn. cbn.
  intros H; inversion H; subst. lia.
Qed.

Lemma iota_valid (n : Z) : valid_range (iota n) 0 n.
Proof.
  intros p Hp. unfold iota.
  destruct (Z.leb_spec 0 p); [| lia]. destruct (Z.ltb_spec p n); [| lia].
  discriminate.
Qed.

Lemma iota_sorted (n first last : Z) : sorted Z.geb (iota n) first last.
Proof.
  intros i j x y Hi Hij Hj Hx Hy.
  apply iota_Some in Hx as [-> _]. apply iota_Some in Hy as [-> _].
  apply Z.geb_le. assumption.
Qed.

Lemma one_then_twos_Some (n p x : Z) :
  one_then_twos n p = Some x ->
  x = (if p =? 0 then 1 else 2) /\ 0 <= p < n.
Proof.
  unfold one_then_twos. destruct (0 <=? p) eqn:H0; [| discriminate].
  destruct (p <? n) eqn:Hn; [| discriminate].
  apply Z.leb_le in H0. apply Z.ltb_lt in Hn. cbn.
  intros H; inversion H; subst. split; [reflexivity | lia].
Qed.

Lemma one_then_twos_valid (n : Z) : valid_range (one_then_twos n) 0 n.
Proof.
  intros p Hp. unfold one_then_twos.
  destruct (Z.leb_spec 0 p); [| lia]. destruct (Z.ltb_spec p n); [| lia].
  discriminate.
Qed.

Lemma one_then_twos_sorted (n first last : Z) :
  sorted Z.geb (one_then_twos n) first last.
Proof.
  intros i j x y Hi Hij Hj Hx Hy.
  apply one_then_twos_Some in Hx as [-> Hip].
  apply one_then_twos_Some in Hy as [-> Hjp].
  apply Z.geb_le.
  destruct (Z.eqb_spec i 0), (Z.eqb_spec j 0); lia.
Qed.

(** ** The exercise's own run of the search ([Exercise3]) *)

Example exercise3_probe_5 :
  BinarySearch Z.geb (vector exercise3) 0 7 5
  = Some ([Call 0 7; Deref 3; Call 0 3; Deref 1; Call 1 3; Deref 2;
           Call 2 3; Deref 2], Ret 3).
Proof. reflexivity. Qed.

Example exercise3_probes :
  map (fun v => option_map result (BinarySearch Z.geb (vector exercise3) 0 7 v))
      [0; 1; 5; 10; 11]
  = [Some (Ret 0); Some (Ret 0); Some (Ret 3); Some (Ret 6); Some (Ret 7)].
Proof. reflexivity. Qed.

Example duplicates_probe :
  BinarySearch Z.geb (vector [2; 2; 2; 5]) 0 4 2
  = Some ([Call 0 4; Deref 2; Call 0 2; Deref 1; Call 0 1; Deref 0], Ret 0).
Proof. reflexivity. Qed.

(** ** The properties of the specification *)

(** Where the code keeps the lower-bound contract: on every non-empty
    sorted range of fewer than [2^32] elements, for every value,
    [BinarySearch] returns a position [p] of [[first, last]] such that [p]
    is [last] or the element at [p] is [>= value], and every element
    strictly before [p] is [< value]. *)
Theorem BinarySearch_lower_bound {T : Type} (ge : T -> T -> bool)
        (mem : memory T) (first last : Z) (value : T) :
  (forall a b c, ge a b = true -> ge b c = true -> ge a c = true) ->
  first < last -> last - first < UInt.modulus ->
  valid_range mem first last -> sorted ge mem first last ->
  exists tr p,
    BinarySearch ge mem first last value = Some (tr, Ret p) /\
    lower_bound ge mem first last value p.
Proof.
  intros Htr Hne Hsz V S.
  destruct (BinarySearch_total ge mem value first last) as (tr & o & H).
  pose proof (proj1 (BinarySearch_Runs ge mem value first last tr o) H) as R.
  destruct (Runs_lower_bound ge value Htr mem first last tr o R Hne Hsz V S)
    as (p & -> & Hp).
  exists tr, p. split; assumption.
Qed.

Lemma BinarySearch_lower_bound_witness :
  (0 < 7 /\ 7 - 0 < UInt.modulus /\
   valid_range (vector exercise3) 0 7 /\
   sorted Z.geb (vector exercise3) 0 7) /\
  exists tr p,
    BinarySearch Z.geb (vector exercise3) 0 7 5 = Some (tr, Ret p) /\
    lower_bound Z.geb (vector exercise3) 0 7 5 p.
Proof.
  assert (Hne : 0 < 7) by reflexivity.
  assert (Hsz : 7 - 0 < UInt.modulus) by reflexivity.
  assert (V : valid_range (vector exercise3) 0 7)
    by exact (vector_valid exercise3).
  assert (S : sorted Z.geb (vector exercise3) 0 7)
    by (apply vector_sorted; unfold exercise3; repeat constructor; lia).
  split; [repeat split; assumption |].
  exact (BinarySearch_lower_bound Z.geb (vector exercise3) 0 7 5
           Zgeb_trans Hne Hsz V S).
Defined.

(** C1: the code breaks the lower-bound contract that the comment above
    the function states, in two places.  On an empty vector the base case
    dereferences [end()] and no position is returned.  On the sorted range
    [0, 1, ..., 2^32 - 1] the distance, stored in an [unsigned int], is
    narrowed to [0]: the first element alone is looked at and the search
    for [5] returns [last], although the element at position 5 is [>= 5]
    and stands before [last]. *)
Theorem BinarySearch_breaks_lower_bound :
  BinarySearch Z.geb (vector []) 0 0 5 = Some ([Call 0 0; Deref 0], Undefined)
  /\
  (0 <= 2 ^ 32 /\
   valid_range (iota (2 ^ 32)) 0 (2 ^ 32) /\
   sorted Z.geb (iota (2 ^ 32)) 0 (2 ^ 32) /\
   BinarySearch Z.geb (iota (2 ^ 32)) 0 (2 ^ 32) 5
   = Some ([Call 0 (2 ^ 32); Deref 0], Ret (2 ^ 32)) /\
   ~ lower_bound Z.geb (iota (2 ^ 32)) 0 (2 ^ 32) 5 (2 ^ 32)).
Proof.
  split; [reflexivity |].
  split; [lia |].
  split; [apply iota_valid |].
  split; [apply iota_sorted |].
  split; [reflexivity |].
  intros (_ & _ & Hb).
  specialize (Hb 5 5 ltac:(lia) eq_refl). discriminate.
Qed.

(** On every empty range the one thing the code does is dereference
    [first]: the end position comes back only where the memory happens to
    hold an element there. *)
Lemma BinarySearch_empty {T : Type} (ge : T -> T -> bool)
      (mem : memory T) (p : Z) (value : T) :
  BinarySearch ge mem p p value
  = Some ([Call p p; Deref p],
          match mem p with Some _ => Ret p | None => Undefined end).
Proof.
  rewrite BinarySearch_unfold. rewrite Z.sub_diag. cbn. unfold deref.
  destruct (mem p) as [x |]; [| reflexivity].
  now destruct (ge x value).
Qed.

(** C2: on an empty range, whatever the memory and the value, the code
    dereferences [first], which is the end position: an element is read
    outside the range.  The end position comes back only if the memory
    holds an element there; on an empty vector it holds none, the
    behaviour is undefined and no position is returned. *)
Theorem BinarySearch_empty_range {T : Type} (ge : T -> T -> bool)
        (mem : memory T) (p : Z) (value : T) (v : Z) :
  (exists o,
     BinarySearch ge mem p p value = Some ([Call p p; Deref p], o) /\
     (o = Ret p /\ mem p <> None \/ o = Undefined /\ mem p = None)) /\
  BinarySearch Z.geb (vector []) 0 0 v = Some ([Call 0 0; Deref 0], Undefined).
Proof.
  split; [| reflexivity].
  rewrite BinarySearch_empty.
  destruct (mem p) as [x |] eqn:Hx; eexists; (split; [reflexivity |]).
  - left. split; [reflexivity | discriminate].
  - right. split; reflexivity.
Qed.

(** C3: on an empty range, whatever the memory and the value, the code
    dereferences a position that is not in [[first, last)]. *)
Theorem BinarySearch_empty_reads_outside {T : Type} (ge : T -> T -> bool)
        (mem : memory T) (p : Z) (value : T) :
  exists tr o,
    BinarySearch ge mem p p value = Some (tr, o) /\
    reads tr = [p] /\ ~ reads_within p p tr.
Proof.
  rewrite BinarySearch_empty. do 2 eexists. split; [reflexivity |].
  split; [reflexivity |].
  unfold reads_within; cbn. intros H. inversion H; subst. lia.
Qed.

(** On every non-empty range, sorted or not, and whatever the memory holds,
    only positions of [[first, last)] are dereferenced. *)
Lemma BinarySearch_reads_within {T : Type} (ge : T -> T -> bool)
      (mem : memory T) (first last : Z) (value : T) :
  first < last ->
  exists tr o,
    BinarySearch ge mem first last value = Some (tr, o) /\
    reads_within first last tr.
Proof.
  intros Hne.
  destruct (BinarySearch_total ge mem value first last) as (tr & o & H).
  exists tr, o. split; [assumption |].
  apply BinarySearch_Runs in H.
  exact (Runs_reads_within ge value mem first last tr o H Hne).
Qed.



(** C5 (as amended): at every invocation with more than one and fewer than
    [2^32] elements remaining, [BinarySearch] reads the element at
    [first + (last - first) / 2] (floored division) and then: if that
    element is [>= value] it recurses on [(first, midpoint)], the half-open
    range that ends before the midpoint; otherwise it recurses on
    [(midpoint, last)], the range that starts at the midpoint. *)
Theorem BinarySearch_recursive_step {T : Type} (ge : T -> T -> bool)
        (mem : memory T) (first last : Z) (value : T) :
  1 < last - first < UInt.modulus ->
  BinarySearch ge mem first last value =
  logged (Call first last)
    (let middle_it := first + (last - first) / 2 in
     deref mem middle_it (fun current_element =>
       if ge current_element value
       then BinarySearch ge mem first middle_it value
       else BinarySearch ge mem middle_it last value)).
Proof.
  intros Hsz. rewrite BinarySearch_unfold.
  rewrite of_Z_small by lia.
  destruct (Z.leb_spec (last - first) 1); [lia | reflexivity].
Qed.

Lemma BinarySearch_recursive_step_witness :
  1 < 7 - 0 < UInt.modulus /\
  BinarySearch Z.geb (vector exercise3) 0 7 5 =
  logged (Call 0 7)
    (deref (vector exercise3) 3 (fun current_element =>
       if current_element >=? 5
       then BinarySearch Z.geb (vector exercise3) 0 3 5
       else BinarySearch Z.geb (vector exercise3) 3 7 5)).
Proof.
  split; [split; reflexivity |].
  apply (BinarySearch_recursive_step Z.geb (vector exercise3) 0 7 5).
  split; reflexivity.
Defined.

(** C5 (as stated) fails in each of its parts.  On [[1, 3]] with value [3]
    the midpoint element qualifies and the code goes on with the range
    [(0, 1)], not with one that includes the midpoint.  With value [5] it
    does not qualify and the code goes on with [(1, 2)], reading the
    midpoint again, where a range after the midpoint would be empty.  On
    [2^32] elements the code does not recurse at all. *)
Lemma BinarySearch_recursive_step_counterexample :
  (BinarySearch Z.geb (vector [1; 3]) 0 2 3
   = Some ([Call 0 2; Deref 1; Call 0 1; Deref 0], Ret 1) /\
   spec_step Z.geb (vector [1; 3]) 0 2 3
   = Some ([Call 0 2; Deref 1; Call 0 2; Deref 1; Call 0 1; Deref 0], Ret 1))
  /\
  (BinarySearch Z.geb (vector [1; 3]) 0 2 5
   = Some ([Call 0 2; Deref 1; Call 1 2; Deref 1], Ret 2) /\
   spec_step Z.geb (vector [1; 3]) 0 2 5
   = Some ([Call 0 2; Deref 1; Call 2 2; Deref 2], Undefined))
  /\
  (BinarySearch Z.geb (iota (2 ^ 32)) 0 (2 ^ 32) 5
   = Some ([Call 0 (2 ^ 32); Deref 0], Ret (2 ^ 32)) /\
   option_map result (spec_step Z.geb (iota (2 ^ 32)) 0 (2 ^ 32) 5)
   = Some (Ret 5))
  /\
  BinarySearch Z.geb (vector [1; 3]) 0 2 3
    <> spec_step Z.geb (vector [1; 3]) 0 2 3 /\
  BinarySearch Z.geb (vector [1; 3]) 0 2 5
    <> spec_step Z.geb (vector [1; 3]) 0 2 5 /\
  BinarySearch Z.geb (iota (2 ^ 32)) 0 (2 ^ 32) 5
    <> spec_step Z.geb (iota (2 ^ 32)) 0 (2 ^ 32) 5.
Proof.
  repeat split; try reflexivity; vm_compute; discriminate.
Qed.

(** Where the code finds the leftmost position: on every sorted range of
    fewer than [2^32] elements that holds an element [>= value],
    duplicates or not, [BinarySearch] returns the leftmost position whose
    element is [>= value]. *)
Theorem BinarySearch_leftmost {T : Type} (ge : T -> T -> bool)
        (mem : memory T) (first last : Z) (value : T) :
  (forall a b c, ge a b = true -> ge b c = true -> ge a c = true) ->
  last - first < UInt.modulus ->
  valid_range mem first last -> sorted ge mem first last ->
  (exists q, first <= q < last /\ ge_at ge mem value q) ->
  exists tr p,
    BinarySearch ge mem first last value = Some (tr, Ret p) /\
    leftmost_ge ge mem first last value p.
Proof.
  intros Htr Hsz V S (q & Hq & x & Hx & Hg).
  destruct (BinarySearch_total ge mem value first last) as (tr & o & H).
  pose proof (proj1 (BinarySearch_Runs ge mem value first last tr o) H) as R.
  destruct (Runs_lower_bound ge value Htr mem first last tr o R
              ltac:(lia) Hsz V S) as (p & -> & Hp & Hor & Hb).
  exists tr, p. split; [assumption |].
  assert (Hlt : p < last).
  { destruct (Z_lt_le_dec q p) as [Hqp | Hqp]; [| lia].
    specialize (Hb q x ltac:(lia) Hx). unfold lt in Hb.
    rewrite Hg in Hb. discriminate. }
  split; [lia |]. split; [| assumption].
  destruct Hor as [-> | Hor]; [lia | assumption].
Qed.

(** The scenario of the specification: in [[2, 2, 2, 5]] the leftmost
    element [>= 2] is at index 0, and that is what the search returns. *)
Lemma BinarySearch_leftmost_witness :
  (4 - 0 < UInt.modulus /\
   valid_range (vector [2; 2; 2; 5]) 0 4 /\
   sorted Z.geb (vector [2; 2; 2; 5]) 0 4 /\
   (exists q, 0 <= q < 4 /\ ge_at Z.geb (vector [2; 2; 2; 5]) 2 q)) /\
  exists tr,
    BinarySearch Z.geb (vector [2; 2; 2; 5]) 0 4 2 = Some (tr, Ret 0) /\
    leftmost_ge Z.geb (vector [2; 2; 2; 5]) 0 4 2 0.
Proof.
  assert (Hsz : 4 - 0 < UInt.modulus) by reflexivity.
  assert (V : valid_range (vector [2; 2; 2; 5]) 0 4)
    by exact (vector_valid [2; 2; 2; 5]).
  assert (S : sorted Z.geb (vector [2; 2; 2; 5]) 0 4)
    by (apply vector_sorted; repeat constructor; lia).
  assert (E : exists q, 0 <= q < 4 /\ ge_at Z.geb (vector [2; 2; 2; 5]) 2 q).
  { exists 3. split; [lia |]. exists 5. split; reflexivity. }
  split; [repeat split; assumption |].
  destruct (BinarySearch_leftmost Z.geb (vector [2; 2; 2; 5]) 0 4 2
              Zgeb_trans Hsz V S E) as (tr & p & H & L).
  assert (Hp : p = 0) by (rewrite duplicates_probe in H; congruence).
  subst p. exists tr. split; assumption.
Defined.

(** C6: on a sorted vector of [2^32] elements, a [1] followed by [2]s, the
    code does not return the leftmost position whose element is [>= 2]:
    the distance, stored in an [unsigned int], is narrowed to [0], only the
    [1] is looked at, and the search for [2] returns [last] instead of
    position 1, the leftmost of the duplicates. *)
Theorem BinarySearch_breaks_leftmost :
  valid_range (one_then_twos (2 ^ 32)) 0 (2 ^ 32) /\
  sorted Z.geb (one_then_twos (2 ^ 32)) 0 (2 ^ 32) /\
  leftmost_ge Z.geb (one_then_twos (2 ^ 32)) 0 (2 ^ 32) 2 1 /\
  BinarySearch Z.geb (one_then_twos (2 ^ 32)) 0 (2 ^ 32) 2
  = Some ([Call 0 (2 ^ 32); Deref 0], Ret (2 ^ 32)) /\
  ~ leftmost_ge Z.geb (one_then_twos (2 ^ 32)) 0 (2 ^ 32) 2 (2 ^ 32).
Proof.
  split; [apply one_then_twos_valid |].
  split; [apply one_then_twos_sorted |].
  split; [| split; [reflexivity |]].
  - split; [lia |]. split.
    + exists 2. split; reflexivity.
    + intros q x Hq Hx. assert (q = 0) by lia. subst q.
      inversion Hx; subst. reflexivity.
  - intros (Hp & _). lia.
Qed.

(** C7: on every non-empty sorted range whose first element is [>= value],
    [BinarySearch] returns [first]. *)
Theorem BinarySearch_first {T : Type} (ge : T -> T -> bool)
        (mem : memory T) (first last : Z) (value : T) :
  (forall a b c, ge a b = true -> ge b c = true -> ge a c = true) ->
  first < last ->
  valid_range mem first last -> sorted ge mem first last ->
  ge_at ge mem value first ->
  exists tr, BinarySearch ge mem first last value = Some (tr, Ret first).
Proof.
  intros Htr Hne V S Hf.
  destruct (BinarySearch_total ge mem value first last) as (tr & o & H).
  pose proof (proj1 (BinarySearch_Runs ge mem value first last tr o) H) as R.
  rewrite (Runs_first ge value Htr mem first last tr o R Hne V S Hf) in H.
  eauto.
Qed.

Lemma BinarySearch_first_witness :
  (0 < 7 /\
   valid_range (vector exercise3) 0 7 /\
   sorted Z.geb (vector exercise3) 0 7 /\
   ge_at Z.geb (vector exercise3) 1 0) /\
  exists tr, BinarySearch Z.geb (vector exercise3) 0 7 1 = Some (tr, Ret 0).
Proof.
  assert (Hne : 0 < 7) by reflexivity.
  assert (V : valid_range (vector exercise3) 0 7)
    by exact (vector_valid exercise3).
  assert (S : sorted Z.geb (vector exercise3) 0 7)
    by (apply vector_sorted; unfold exercise3; repeat constructor; lia).
  assert (F : ge_at Z.geb (vector exercise3) 1 0)
    by (exists 1; split; reflexivity).
  split; [repeat split; assumption |].
  exact (BinarySearch_first Z.geb (vector exercise3) 0 7 1
           Zgeb_trans Hne V S F).
Defined.

(** C8: two calls with the same positions and value, on memories that hold
    the same elements in the range, yield the same run, hence the same
    position; in particular two calls on one memory do. *)
Theorem BinarySearch_deterministic {T : Type} (ge : T -> T -> bool)
        (mem mem' : memory T) (first last : Z) (value : T) :
  first <= last -> same_elements mem mem' first last ->
  BinarySearch ge mem first last value = BinarySearch ge mem' first last value.
Proof.
  intros Hle E.
  destruct (BinarySearch_total ge mem value first last) as (tr & o & H).
  rewrite H. symmetry. apply BinarySearch_Runs.
  apply BinarySearch_Runs in H.
  exact (Runs_same_elements ge value mem mem' first last tr o H Hle E).
Qed.

Lemma BinarySearch_deterministic_witness :
  (0 <= 3 /\ same_elements (vector [1; 3; 4; 6]) (vector [1; 3; 4; 0]) 0 3) /\
  BinarySearch Z.geb (vector [1; 3; 4; 6]) 0 3 4
  = BinarySearch Z.geb (vector [1; 3; 4; 0]) 0 3 4.
Proof.
  assert (Hle : 0 <= 3) by discriminate.
  assert (E : same_elements (vector [1; 3; 4; 6]) (vector [1; 3; 4; 0]) 0 3).
  { intros p Hp Hq.
    assert (Hc : p = 0 \/ p = 1 \/ p = 2) by lia.
    destruct Hc as [-> | [-> | ->]]; reflexivity. }
  split; [split; assumption |].
  exact (BinarySearch_deterministic Z.geb _ _ 0 3 4 Hle E).
Defined.

(** C9: from a non-empty range every invocation, the first and the
    recursive ones, is on a non-empty range; where the code recurses the
    midpoint lies strictly inside the range, so that both [(first, middle)]
    and [(middle, last)] are non-empty. *)
Theorem BinarySearch_calls_nonempty {T : Type} (ge : T -> T -> bool)
        (mem : memory T) (first last : Z) (value : T) :
  first < last ->
  (UInt.of_Z (last - first) <= 1 \/
   first < first + UInt.of_Z (last - first) / 2 < last) /\
  exists tr o,
    BinarySearch ge mem first last value = Some (tr, o) /\
    calls_nonempty tr.
Proof.
  intros Hne. split.
  - destruct (Z_le_gt_dec (UInt.of_Z (last - first)) 1) as [Hc | Hc];
      [now left | right].
    apply middle_inside; lia.
  - destruct (BinarySearch_total ge mem value first last) as (tr & o & H).
    exists tr, o. split; [assumption |].
    apply BinarySearch_Runs in H.
    exact (Runs_calls_nonempty ge value mem first last tr o H Hne).
Qed.

Lemma BinarySearch_calls_nonempty_witness :
  0 < 7 /\
  (UInt.of_Z (7 - 0) <= 1 \/ 0 < 0 + UInt.of_Z (7 - 0) / 2 < 7) /\
  exists tr o,
    BinarySearch Z.geb (vector exercise3) 0 7 5 = Some (tr, o) /\
    calls_nonempty tr.
Proof.
  split; [reflexivity |].
  apply (BinarySearch_calls_nonempty Z.geb (vector exercise3) 0 7 5).
  reflexivity.
Defined.

(** C10: on every non-empty range of the memory, sorted or not, and every
    value, [BinarySearch] returns a position of [[first, last]]. *)
Theorem BinarySearch_in_range {T : Type} (ge : T -> T -> bool)
        (mem : memory T) (first last : Z) (value : T) :
  first < last -> valid_range mem first last ->
  exists tr p,
    BinarySearch ge mem first last value = Some (tr, Ret p) /\
    first <= p <= last.
Proof.
  intros Hne V.
  destruct (BinarySearch_total ge mem value first last) as (tr & o & H).
  pose proof (proj1 (BinarySearch_Runs ge mem value first last tr o) H) as R.
  destruct (Runs_returns ge value mem first last tr o R Hne V) as (p & -> & Hp).
  exists tr, p. split; assumption.
Qed.

Lemma BinarySearch_in_range_witness :
  (0 < 3 /\ valid_range (vector [5; 1; 4]) 0 3) /\
  exists tr p,
    BinarySearch Z.geb (vector [5; 1; 4]) 0 3 2 = Some (tr, Ret p) /\
    0 <= p <= 3.
Proof.
  assert (Hne : 0 < 3) by reflexivity.
  assert (V : valid_range (vector [5; 1; 4]) 0 3)
    by exact (vector_valid [5; 1; 4]).
  split; [split; assumption |].
  exact (BinarySearch_in_range Z.geb (vector [5; 1; 4]) 0 3 2 Hne V).
Defined.

(** ** Further properties of [BinarySearch] *)

Section MoreRunProperties.

Context {T : Type}.
Variable ge : T -> T -> bool.
Variable value : T.

(** Where every element fails the test the search goes right at every
    midpoint and ends at [last]. *)
Lemma Runs_all_lt (mem : memory T) (first last : Z)
      (tr : list event) (o : outcome) :
  Runs ge mem value first last tr o ->
  first < last -> valid_range mem first last ->
  lt_before ge mem value first last ->
  o = Ret last.
Proof.
  induction 1 as [first last x Hc Hx | first last Hc Hx
                 | first last x tr o Hc Hx Hg R IH
                 | first last x tr o Hc Hx Hg R IH
                 | first last Hc Hx];
    intros Hne V L;
    try (pose proof (middle_inside _ _ Hne Hc) as Hm).
  - specialize (L first x ltac:(lia) Hx). unfold lt in L.
    apply negb_true_iff in L. now rewrite L.
  - exfalso. apply (V first); [lia | assumption].
  - exfalso.
    specialize (L (first + UInt.of_Z (last - first) / 2) x ltac:(lia) Hx).
    unfold lt in L. rewrite Hg in L. discriminate.
  - apply IH; [lia | |].
    + apply (valid_range_sub mem first last); [assumption | lia | lia].
    + intros q y Hq. apply L. lia.
  - exfalso. apply (V (first + UInt.of_Z (last - first) / 2)); [lia | assumption].
Qed.

(** Sorted or not: the position returned holds an element [>= value]
    unless it is [last], and the element before it is [< value] unless the
    position is [first]. *)
Lemma Runs_crossing (mem : memory T) (first last : Z)
      (tr : list event) (o : outcome) :
  Runs ge mem value first last tr o ->
  first < last -> last - first < UInt.modulus ->
  valid_range mem first last ->
  exists p, o = Ret p /\ first <= p <= last /\
            (p = last \/ ge_at ge mem value p) /\
            (p = first /\ ge_at ge mem value first \/
             first < p /\ exists x, mem (p - 1) = Some x /\ lt ge x value = true).
Proof.
  induction 1 as [first last x Hc Hx | first last Hc Hx
                 | first last x tr o Hc Hx Hg R IH
                 | first last x tr o Hc Hx Hg R IH
                 | first last Hc Hx];
    intros Hne Hsz V;
    try (pose proof (middle_inside _ _ Hne Hc) as Hm).
  - rewrite of_Z_small in Hc by lia.
    destruct (ge x value) eqn:Hg; eexists; (split; [reflexivity |]).
    + split; [lia |]. split; [right | left; split; [reflexivity |]];
        exists x; auto.
    + split; [lia |]. split; [now left |]. right. split; [lia |].
      exists x. replace (last - 1) with first by lia.
      split; [assumption |]. unfold lt. now rewrite Hg.
  - exfalso. apply (V first); [lia | assumption].
  - destruct IH as (p & -> & Hp & Hor & Hprev); [lia | lia | |].
    + apply (valid_range_sub mem first last); [assumption | lia | lia].
    + exists p. split; [reflexivity |]. split; [lia |]. split; [| assumption].
      right. destruct Hor as [-> | Hor]; [| assumption]. exists x. auto.
  - destruct IH as (p & -> & Hp & Hor & Hprev); [lia | lia | |].
    + apply (valid_range_sub mem first last); [assumption | lia | lia].
    + exists p. split; [reflexivity |]. split; [lia |]. split; [assumption |].
      right. destruct Hprev as [[-> (y & Hy & Hgy)] | [Hlt Hprev]].
      * rewrite Hx in Hy. inversion Hy; subst. congruence.
      * split; [lia | assumption].
  - exfalso. apply (V (first + UInt.of_Z (last - first) / 2)); [lia | assumption].
Qed.

(** At most one position of a range meets the lower-bound contract. *)
Lemma lower_bound_unique (mem : memory T) (first last p q : Z) :
  lower_bound ge mem first last value p ->
  lower_bound ge mem first last value q ->
  p = q.
Proof.
  assert (Hlt : forall a b,
             lower_bound ge mem first last value a ->
             lower_bound ge mem first last value b -> ~ a < b).
  { intros a b (Ha & Hora & _) (Hb & _ & Hbb) Hab.
    destruct Hora as [-> | (x & Hx & Hg)]; [lia |].
    specialize (Hbb a x ltac:(lia) Hx). unfold lt in Hbb.
    rewrite Hg in Hbb. discriminate. }
  intros Hp Hq.
  pose proof (Hlt p q Hp Hq). pose proof (Hlt q p Hq Hp). lia.
Qed.

End MoreRunProperties.

(** X1: on every non-empty range of the memory, sorted or not and of any
    length, whose elements are all [< value], [BinarySearch] returns
    [last]. *)
Theorem BinarySearch_greater_than_all {T : Type} (ge : T -> T -> bool)
        (mem : memory T) (first last : Z) (value : T) :
  first < last -> valid_range mem first last ->
  lt_before ge mem value first last ->
  exists tr, BinarySearch ge mem first last value = Some (tr, Ret last).
Proof.
  intros Hne V L.
  destruct (BinarySearch_total ge mem value first last) as (tr & o & H).
  pose proof (proj1 (BinarySearch_Runs ge mem value first last tr o) H) as R.
  rewrite (Runs_all_lt ge value mem first last tr o R Hne V L) in H.
  eauto.
Qed.

Lemma BinarySearch_greater_than_all_witness :
  (0 < 3 /\ valid_range (vector [5; 1; 4]) 0 3 /\
   lt_before Z.geb (vector [5; 1; 4]) 6 0 3) /\
  exists tr, BinarySearch Z.geb (vector [5; 1; 4]) 0 3 6 = Some (tr, Ret 3).
Proof.
  assert (Hne : 0 < 3) by reflexivity.
  assert (V : valid_range (vector [5; 1; 4]) 0 3)
    by exact (vector_valid [5; 1; 4]).
  assert (L : lt_before Z.geb (vector [5; 1; 4]) 6 0 3).
  { intros q x Hq.
    assert (Hc : q = 0 \/ q = 1 \/ q = 2) by lia.
    destruct Hc as [-> | [-> | ->]]; intros Hx; inversion Hx; reflexivity. }
  split; [repeat split; assumption |].
  exact (BinarySearch_greater_than_all Z.geb (vector [5; 1; 4]) 0 3 6 Hne V L).
Defined.

(** X2: on every non-empty range of fewer than [2^32] elements, sorted or
    not, the position [p] returned is a crossing point: the element at [p]
    is [>= value] unless [p] is [last], and the element at [p - 1] is
    [< value] unless [p] is [first]. *)
Theorem BinarySearch_crossing {T : Type} (ge : T -> T -> bool)
        (mem : memory T) (first last : Z) (value : T) :
  first < last -> last - first < UInt.modulus ->
  valid_range mem first last ->
  exists tr p,
    BinarySearch ge mem first last value = Some (tr, Ret p) /\
    first <= p <= last /\
    (p = last \/ ge_at ge mem value p) /\
    (p = first \/ exists x, mem (p - 1) = Some x /\ lt ge x value = true).
Proof.
  intros Hne Hsz V.
  destruct (BinarySearch_total ge mem value first last) as (tr & o & H).
  pose proof (proj1 (BinarySearch_Runs ge mem value first last tr o) H) as R.
  destruct (Runs_crossing ge value mem first last tr o R Hne Hsz V)
    as (p & -> & Hp & Hor & Hprev).
  exists tr, p. repeat split; try assumption; try lia.
  destruct Hprev as [[-> _] | [_ Hprev]]; [now left | now right].
Qed.

Lemma BinarySearch_crossing_witness :
  (0 < 3 /\ 3 - 0 < UInt.modulus /\ valid_range (vector [5; 1; 4]) 0 3) /\
  exists tr p,
    BinarySearch Z.geb (vector [5; 1; 4]) 0 3 2 = Some (tr, Ret p) /\
    0 <= p <= 3 /\
    (p = 3 \/ ge_at Z.geb (vector [5; 1; 4]) 2 p) /\
    (p = 0 \/ exists x, vector [5; 1; 4] (p - 1) = Some x /\
                        lt Z.geb x 2 = true).
Proof.
  assert (Hne : 0 < 3) by reflexivity.
  assert (Hsz : 3 - 0 < UInt.modulus) by reflexivity.
  assert (V : valid_range (vector [5; 1; 4]) 0 3)
    by exact (vector_valid [5; 1; 4]).
  split; [repeat split; assumption |].
  exact (BinarySearch_crossing Z.geb (vector [5; 1; 4]) 0 3 2 Hne Hsz V).
Defined.

(** X3: on a non-empty sorted range of fewer than [2^32] elements, every
    position that meets the lower-bound contract is the position
    [BinarySearch] returns: the search agrees with any other lower-bound
    search. *)
Theorem BinarySearch_agrees {T : Type} (ge : T -> T -> bool)
        (mem : memory T) (first last : Z) (value : T) (q : Z) :
  (forall a b c, ge a b = true -> ge b c = true -> ge a c = true) ->
  first < last -> last - first < UInt.modulus ->
  valid_range mem first last -> sorted ge mem first last ->
  lower_bound ge mem first last value q ->
  exists tr, BinarySearch ge mem first last value = Some (tr, Ret q).
Proof.
  intros Htr Hne Hsz V S Hq.
  destruct (BinarySearch_total ge mem value first last) as (tr & o & H).
  pose proof (proj1 (BinarySearch_Runs ge mem value first last tr o) H) as R.
  destruct (Runs_lower_bound ge value Htr mem first last tr o R Hne Hsz V S)
    as (p & -> & Hp).
  rewrite (lower_bound_unique ge value mem first last p q Hp Hq) in H.
  eauto.
Qed.

Lemma BinarySearch_agrees_witness :
  (0 < 7 /\ 7 - 0 < UInt.modulus /\
   valid_range (vector exercise3) 0 7 /\
   sorted Z.geb (vector exercise3) 0 7 /\
   lower_bound Z.geb (vector exercise3) 0 7 5 3) /\
  exists tr, BinarySearch Z.geb (vector exercise3) 0 7 5 = Some (tr, Ret 3).
Proof.
  assert (Hne : 0 < 7) by reflexivity.
  assert (Hsz : 7 - 0 < UInt.modulus) by reflexivity.
  assert (V : valid_range (vector exercise3) 0 7)
    by exact (vector_valid exercise3).
  assert (S : sorted Z.geb (vector exercise3) 0 7)
    by (apply vector_sorted; unfold exercise3; repeat constructor; lia).
  assert (L : lower_bound Z.geb (vector exercise3) 0 7 5 3).
  { split; [lia |]. split.
    - right. exists 6. split; reflexivity.
    - intros q x Hq.
      assert (Hc : q = 0 \/ q = 1 \/ q = 2) by lia.
      destruct Hc as [-> | [-> | ->]]; intros Hx; inversion Hx; reflexivity. }
  split; [exact (conj Hne (conj Hsz (conj V (conj S L)))) |].
  exact (BinarySearch_agrees Z.geb (vector exercise3) 0 7 5 3
           Zgeb_trans Hne Hsz V S L).
Defined.

(** X4: on a sorted range of fewer than [2^32] elements that holds an
    element equivalent to [value] (each [>=] the other), [BinarySearch]
    returns the position of the first element equivalent to [value]. *)
Theorem BinarySearch_finds {T : Type} (ge : T -> T -> bool)
        (mem : memory T) (first last : Z) (value : T) :
  (forall a b c, ge a b = true -> ge b c = true -> ge a c = true) ->
  last - first < UInt.modulus ->
  valid_range mem first last -> sorted ge mem first last ->
  (exists q y, first <= q < last /\ mem q = Some y /\
               ge y value = true /\ ge value y = true) ->
  exists tr p x,
    BinarySearch ge mem first last value = Some (tr, Ret p) /\
    first <= p < last /\ mem p = Some x /\
    ge x value = true /\ ge value x = true /\
    lt_before ge mem value first p.
Proof.
  intros Htr Hsz V S (q & y & Hq & Hy & Hyv & Hvy).
  destruct (BinarySearch_total ge mem value first last) as (tr & o & H).
  pose proof (proj1 (BinarySearch_Runs ge mem value first last tr o) H) as R.
  destruct (Runs_lower_bound ge value Htr mem first last tr o R
              ltac:(lia) Hsz V S) as (p & -> & Hp & Hor & Hb).
  assert (Hpq : p <= q).
  { destruct (Z_lt_le_dec q p) as [Hlt | Hle]; [| assumption].
    specialize (Hb q y ltac:(lia) Hy). unfold lt in Hb.
    rewrite Hyv in Hb. discriminate. }
  destruct Hor as [-> | (x & Hx & Hxv)]; [lia |].
  exists tr, p, x. split; [assumption |]. split; [lia |].
  split; [assumption |]. split; [assumption |]. split; [| assumption].
  apply (Htr value y x); [assumption |].
  apply (S p q x y); (assumption || lia).
Qed.

Lemma BinarySearch_finds_witness :
  (7 - 0 < UInt.modulus /\
   valid_range (vector exercise3) 0 7 /\
   sorted Z.geb (vector exercise3) 0 7 /\
   (exists q y, 0 <= q < 7 /\ vector exercise3 q = Some y /\
                (y >=? 7) = true /\ (7 >=? y) = true)) /\
  exists tr p x,
    BinarySearch Z.geb (vector exercise3) 0 7 7 = Some (tr, Ret p) /\
    0 <= p < 7 /\ vector exercise3 p = Some x /\
    (x >=? 7) = true /\ (7 >=? x) = true /\
    lt_before Z.geb (vector exercise3) 7 0 p.
Proof.
  assert (Hsz : 7 - 0 < UInt.modulus) by reflexivity.
  assert (V : valid_range (vector exercise3) 0 7)
    by exact (vector_valid exercise3).
  assert (S : sorted Z.geb (vector exercise3) 0 7)
    by (apply vector_sorted; unfold exercise3; repeat constructor; lia).
  assert (E : exists q y, 0 <= q < 7 /\ vector exercise3 q = Some y /\
                          (y >=? 7) = true /\ (7 >=? y) = true).
  { exists 4, 7. split; [lia |]. repeat split; reflexivity. }
  split; [exact (conj Hsz (conj V (conj S E))) |].
  exact (BinarySearch_finds Z.geb (vector exercise3) 0 7 7 Zgeb_trans Hsz V S E).
Defined.

(** X5: on a non-empty sorted range of fewer than [2^32] elements the
    position returned does not move left when the value grows. *)
Theorem BinarySearch_monotone {T : Type} (ge : T -> T -> bool)
        (mem : memory T) (first last : Z) (value value' : T) :
  (forall a b c, ge a b = true -> ge b c = true -> ge a c = true) ->
  first < last -> last - first < UInt.modulus ->
  valid_range mem first last -> sorted ge mem first last ->
  ge value' value = true ->
  exists tr tr' p p',
    BinarySearch ge mem first last value = Some (tr, Ret p) /\
    BinarySearch ge mem first last value' = Some (tr', Ret p') /\
    p <= p'.
Proof.
  intros Htr Hne Hsz V S Hvv.
  destruct (BinarySearch_total ge mem value first last) as (tr & o & H).
  destruct (BinarySearch_total ge mem value' first last) as (tr' & o' & H').
  pose proof (proj1 (BinarySearch_Runs ge mem value first last tr o) H) as R.
  pose proof (proj1 (BinarySearch_Runs ge mem value' first last tr' o') H') as R'.
  destruct (Runs_lower_bound ge value Htr mem first last tr o R Hne Hsz V S)
    as (p & -> & Hp & _ & Hb).
  destruct (Runs_lower_bound ge value' Htr mem first last tr' o' R' Hne Hsz V S)
    as (p' & -> & Hp' & Hor' & _).
  exists tr, tr', p, p'. split; [assumption |]. split; [assumption |].
  destruct (Z_lt_le_dec p' p) as [Hlt | Hle]; [exfalso | assumption].
  destruct Hor' as [-> | (x & Hx & Hxv)]; [lia |].
  specialize (Hb p' x ltac:(lia) Hx). unfold lt in Hb.
  rewrite (Htr x value' value Hxv Hvv) in Hb. discriminate.
Qed.

Lemma BinarySearch_monotone_witness :
  (0 < 7 /\ 7 - 0 < UInt.modulus /\
   valid_range (vector exercise3) 0 7 /\
   sorted Z.geb (vector exercise3) 0 7 /\
   (8 >=? 2) = true) /\
  exists tr tr' p p',
    BinarySearch Z.geb (vector exercise3) 0 7 2 = Some (tr, Ret p) /\
    BinarySearch Z.geb (vector exercise3) 0 7 8 = Some (tr', Ret p') /\
    p <= p'.
Proof.
  assert (Hne : 0 < 7) by reflexivity.
  assert (Hsz : 7 - 0 < UInt.modulus) by reflexivity.
  assert (V : valid_range (vector exercise3) 0 7)
    by exact (vector_valid exercise3).
  assert (S : sorted Z.geb (vector exercise3) 0 7)
    by (apply vector_sorted; unfold exercise3; repeat constructor; lia).
  assert (G : (8 >=? 2) = true) by reflexivity.
  split; [exact (conj Hne (conj Hsz (conj V (conj S G)))) |].
  exact (BinarySearch_monotone Z.geb (vector exercise3) 0 7 2 8
           Zgeb_trans Hne Hsz V S G).
Defined.

(** ** [Misc::Exercise3] *)

(** When the first [n] elements fail a test and the next one, if there is
    one, passes, a search from the front stops at index [n]. *)
Lemma find_nth_error {A : Type} (f : A -> bool) (l : list A) :
  forall n,
    (forall k x, (k < n)%nat -> nth_error l k = Some x -> f x = false) ->
    (n = length l \/ exists x, nth_error l n = Some x /\ f x = true) ->
    find f l = nth_error l n.
Proof.
  induction l as [| a l IH]; intros n Hb Hor.
  - destruct Hor as [-> | (x & Hx & _)]; [reflexivity |].
    destruct n; discriminate.
  - destruct n as [| n]; cbn.
    + destruct Hor as [Hn | (x & Hx & Hf)]; [discriminate |].
      cbn in Hx. inversion Hx; subst. now rewrite Hf.
    + rewrite (Hb O a) by (reflexivity || lia).
      apply IH.
      * intros k x Hk Hx. apply (Hb (S k) x); [lia | assumption].
      * destruct Hor as [Hn | Hx]; [left; cbn in Hn; lia | now right].
Qed.

Lemma vector_nth_error {A : Type} (v : list A) (p : Z) :
  0 <= p -> vector v p = nth_error v (Z.to_nat p).
Proof.
  intros Hp. unfold vector.
  destruct (Z.ltb_spec p 0); [lia | reflexivity].
Qed.

(** One round of the loop on a non-empty sorted vector. *)
Lemma Exercise3_probe_sorted (v : list Z) (i : Z) :
  v <> [] -> StronglySorted Z.le v ->
  Z.of_nat (length v) < UInt.modulus ->
  Exercise3_probe v i = Done (first_ge_line v i).
Proof.
  intros Hv S Hsz.
  assert (Hne : 0 < Z.of_nat (length v)) by (destruct v; [congruence | cbn; lia]).
  destruct (BinarySearch_total Z.geb (vector v) i 0 (Z.of_nat (length v)))
    as (tr & o & H).
  pose proof (proj1 (BinarySearch_Runs Z.geb (vector v) i 0 _ tr o) H) as R.
  destruct (Runs_lower_bound Z.geb i Zgeb_trans (vector v) 0 _ tr o R Hne
              ltac:(lia) (vector_valid v) (vector_sorted v 0 _ S))
    as (p & -> & Hp & Hor & Hb).
  unfold Exercise3_probe, first_ge_line. rewrite H.
  rewrite (find_nth_error (fun x => x >=? i) v (Z.to_nat p)).
  - rewrite <- vector_nth_error by lia.
    destruct (Z.eqb_spec p (Z.of_nat (length v))) as [-> | Hpl].
    + rewrite vector_nth_error, Nat2Z.id by lia.
      now rewrite (proj2 (nth_error_None v (length v)) (Nat.le_refl _)).
    + destruct Hor as [-> | (x & Hx & _)]; [congruence |].
      now rewrite Hx.
  - intros k x Hk Hx.
    specialize (Hb (Z.of_nat k) x ltac:(lia)).
    rewrite vector_nth_error, Nat2Z.id in Hb by lia.
    specialize (Hb Hx). unfold lt in Hb. now apply negb_true_iff in Hb.
  - destruct Hor as [-> | (x & Hx & Hg)]; [left; now rewrite Nat2Z.id |].
    right. exists x. rewrite vector_nth_error in Hx by lia. auto.
Qed.

Lemma Exercise3_loop_sorted (v : list Z) :
  v <> [] -> StronglySorted Z.le v ->
  Z.of_nat (length v) < UInt.modulus ->
  forall rounds i,
    0 <= i ->
    Exercise3_loop v rounds i
    = Done (map (first_ge_line v) (map Z.of_nat (seq (Z.to_nat i) rounds))).
Proof.
  intros Hv S Hsz. induction rounds as [| n IH]; intros i Hi; [reflexivity |].
  cbn [Exercise3_loop seq map].
  rewrite Exercise3_probe_sorted by assumption.
  rewrite IH by lia. rewrite Z2Nat.id by assumption.
  replace (Z.to_nat (i + 1)) with (Datatypes.S (Z.to_nat i)) by lia.
  reflexivity.
Qed.

(** X6: on every non-empty sorted vector of fewer than [2^32] elements the
    loop of [Exercise3] completes without undefined behaviour and prints,
    for each probe [i = 0 .. 19], the first element of the vector that is
    [>= i], or the text for [v.end()] when there is none: what a search
    from the front finds. *)
Theorem Exercise3_prints_first_ge (v : list Z) :
  v <> [] -> StronglySorted Z.le v ->
  Z.of_nat (length v) < UInt.modulus ->
  Exercise3_on v = Done (map (first_ge_line v) (map Z.of_nat (seq 0 20))).
Proof.
  intros Hv S Hsz. unfold Exercise3_on.
  now rewrite (Exercise3_loop_sorted v Hv S Hsz 20 0) by lia.
Qed.

Lemma Exercise3_prints_first_ge_witness :
  (exercise3 <> [] /\ StronglySorted Z.le exercise3 /\
   Z.of_nat (length exercise3) < UInt.modulus) /\
  Exercise3 = Done (map (first_ge_line exercise3) (map Z.of_nat (seq 0 20))).
Proof.
  assert (Hv : exercise3 <> []) by discriminate.
  assert (S : StronglySorted Z.le exercise3)
    by (unfold exercise3; repeat constructor; lia).
  assert (Hsz : Z.of_nat (length exercise3) < UInt.modulus) by reflexivity.
  split; [exact (conj Hv (conj S Hsz)) |].
  exact (Exercise3_prints_first_ge exercise3 Hv S Hsz).
Defined.

(** On an empty vector the first round already dereferences [v.end()]. *)
Example Exercise3_empty : Exercise3_on [] = UndefinedBehaviour.
Proof. reflexivity. Qed.

(** ** [PrintTable] *)

Lemma at_middle {A : Type} (p s : list A) (n : nat) :
  n = length p -> at_ (p ++ s) (Z.of_nat n) = nth_error s 0.
Proof.
  intros ->. unfold at_. rewrite Nat2Z.id, nth_error_app2 by lia.
  now rewrite Nat.sub_diag.
Qed.

(** The round for the row [a], [b] that stands after the rows already
    printed. *)
Lemma PrintTable_loop_step (fuel : nat) (p1 s1 p2 s2 : list string)
      (a b : string) :
  length p1 = length p2 ->
  Z.of_nat (length (p1 ++ a :: s1)) <= Int.max ->
  PrintTable_loop (S fuel) (p1 ++ a :: s1) (p2 ++ b :: s2)
                  (Z.of_nat (length p1))
  = print_first [a; tab; b; endl]
      (PrintTable_loop fuel ((p1 ++ [a]) ++ s1) ((p2 ++ [b]) ++ s2)
                       (Z.of_nat (length (p1 ++ [a])))).
Proof.
  intros Hl Hmax. rewrite length_app in Hmax. cbn [length] in Hmax.
  cbn [PrintTable_loop].
  rewrite (at_middle p1 (a :: s1) (length p1) eq_refl).
  rewrite (at_middle p2 (b :: s2) (length p1) Hl). cbn [nth_error].
  destruct (Z.ltb_spec (Z.of_nat (length p1))
                       (Z.of_nat (length (p1 ++ a :: s1)))) as [_ | Hge];
    [| rewrite length_app in Hge; cbn [length] in Hge; lia].
  destruct (Z.eqb_spec (Z.of_nat (length p1)) Int.max) as [He | _]; [lia |].
  rewrite <- !app_assoc. cbn [app].
  rewrite length_app. cbn [length].
  replace (Z.of_nat (length p1 + 1)) with (Z.of_nat (length p1) + 1) by lia.
  reflexivity.
Qed.

Lemma PrintTable_loop_enough (s1 : list string) :
  forall p1 p2 s2 fuel,
    length p1 = length p2 -> (length s1 < fuel)%nat ->
    (length s1 <= length s2)%nat ->
    Z.of_nat (length (p1 ++ s1)) <= Int.max ->
    PrintTable_loop fuel (p1 ++ s1) (p2 ++ s2) (Z.of_nat (length p1))
    = Some (flat_map row (combine s1 s2), Done tt).
Proof.
  induction s1 as [| a s1 IH]; intros p1 p2 s2 fuel Hl Hf Hs Hmax;
    (destruct fuel as [| fuel]; [lia |]).
  - cbn [PrintTable_loop]. rewrite app_nil_r.
    now rewrite Z.ltb_irrefl.
  - destruct s2 as [| b s2]; [cbn in Hs; lia |].
    rewrite PrintTable_loop_step by assumption.
    rewrite IH.
    + reflexivity.
    + rewrite !length_app. cbn. lia.
    + cbn in Hf. lia.
    + cbn in Hs. lia.
    + now rewrite <- app_assoc.
Qed.

Lemma PrintTable_loop_short (s1 : list string) :
  forall p1 p2 s2 fuel,
    length p1 = length p2 -> (length s1 < fuel)%nat ->
    (length s2 < length s1)%nat ->
    Z.of_nat (length (p1 ++ s1)) <= Int.max ->
    PrintTable_loop fuel (p1 ++ s1) (p2 ++ s2) (Z.of_nat (length p1))
    = Some (flat_map row (combine s1 s2)
              ++ [nth (length s2) s1 EmptyString; tab],
            OutOfRange).
Proof.
  induction s1 as [| a s1 IH]; intros p1 p2 s2 fuel Hl Hf Hs Hmax;
    [cbn in Hs; lia |].
  destruct fuel as [| fuel]; [lia |].
  destruct s2 as [| b s2].
  - cbn [PrintTable_loop].
    rewrite (at_middle p1 (a :: s1) (length p1) eq_refl).
    rewrite (at_middle p2 [] (length p1) Hl). cbn [nth_error].
    destruct (Z.ltb_spec (Z.of_nat (length p1))
                         (Z.of_nat (length (p1 ++ a :: s1)))) as [_ | Hge];
      [reflexivity |].
    rewrite length_app in Hge. cbn [length] in Hge. lia.
  - rewrite PrintTable_loop_step by assumption.
    rewrite IH.
    + reflexivity.
    + rewrite !length_app. cbn. lia.
    + cbn in Hf. lia.
    + cbn in Hs. lia.
    + now rewrite <- app_assoc.
Qed.

(** X7: when [v2] has at least as many elements as [v1], [PrintTable]
    returns normally after printing one row per element of [v1]: the
    element, a tab, the element of [v2] at the same index, a line end;
    what [v2] holds beyond the length of [v1] is not printed. *)
Theorem PrintTable_rows (v1 v2 : list string) :
  (length v1 <= length v2)%nat ->
  Z.of_nat (length v1) <= Int.max ->
  PrintTable v1 v2 = Some (flat_map row (combine v1 v2), Done tt).
Proof.
  intros Hs Hmax. unfold PrintTable.
  apply (PrintTable_loop_enough v1 [] [] v2 (S (length v1)));
    [reflexivity | lia | assumption | assumption].
Qed.

Lemma PrintTable_rows_witness :
  ((length ["A"; "B"]%string <= length ["x"; "y"; "z"]%string)%nat /\
   Z.of_nat (length ["A"; "B"]%string) <= Int.max) /\
  PrintTable ["A"; "B"]%string ["x"; "y"; "z"]%string
  = Some (flat_map row (combine ["A"; "B"]%string ["x"; "y"; "z"]%string),
          Done tt).
Proof.
  assert (Hs : (length ["A"; "B"]%string <= length ["x"; "y"; "z"]%string)%nat)
    by (cbn; lia).
  assert (Hmax : Z.of_nat (length ["A"; "B"]%string) <= Int.max)
    by discriminate.
  split; [exact (conj Hs Hmax) |].
  exact (PrintTable_rows _ _ Hs Hmax).
Defined.

(** X8: when [v2] is shorter than [v1] and [v1] has no more than [INT_MAX]
    elements, [PrintTable] prints a full row for every element of [v2],
    then the element of [v1] at index [v2.size()] and a tab, and throws
    [std::out_of_range] from [v2.at]. *)
Theorem PrintTable_throws (v1 v2 : list string) :
  (length v2 < length v1)%nat ->
  Z.of_nat (length v1) <= Int.max ->
  PrintTable v1 v2
  = Some (flat_map row (combine v1 v2)
            ++ [nth (length v2) v1 EmptyString; tab],
          OutOfRange).
Proof.
  intros Hs Hmax. unfold PrintTable.
  apply (PrintTable_loop_short v1 [] [] v2 (S (length v1)));
    [reflexivity | lia | assumption | assumption].
Qed.

Lemma PrintTable_throws_witness :
  ((length ["x"]%string < length ["A"; "B"]%string)%nat /\
   Z.of_nat (length ["A"; "B"]%string) <= Int.max) /\
  PrintTable ["A"; "B"]%string ["x"]%string
  = Some (flat_map row (combine ["A"; "B"]%string ["x"]%string)
            ++ [nth (length ["x"]%string) ["A"; "B"]%string EmptyString; tab],
          OutOfRange).
Proof.
  assert (Hs : (length ["x"]%string < length ["A"; "B"]%string)%nat)
    by (cbn; lia).
  assert (Hmax : Z.of_nat (length ["A"; "B"]%string) <= Int.max)
    by discriminate.
  split; [exact (conj Hs Hmax) |].
  exact (PrintTable_throws _ _ Hs Hmax).
Defined.

(** ** [ContainerAlgorithm::Exercise16] *)

Section RunningMaximum.

Context {A : Type}.
Variable f : A -> Z.

Lemma running_max_ge_start (l : list A) :
  forall acc, acc <= fold_left (fun a x => Z.max a (f x)) l acc.
Proof.
  induction l as [| x l IH]; intros acc; cbn; [lia |].
  specialize (IH (Z.max acc (f x))). lia.
Qed.

Lemma running_max_ge_each (l : list A) :
  forall acc x, In x l -> f x <= fold_left (fun a y => Z.max a (f y)) l acc.
Proof.
  induction l as [| y l IH]; intros acc x Hin; [contradiction |].
  cbn. destruct Hin as [-> | Hin].
  - pose proof (running_max_ge_start l (Z.max acc (f x))). lia.
  - now apply IH.
Qed.

Lemma running_max_attained (l : list A) :
  forall acc,
    fold_left (fun a y => Z.max a (f y)) l acc = acc \/
    exists x, In x l /\ fold_left (fun a y => Z.max a (f y)) l acc = f x.
Proof.
  induction l as [| y l IH]; intros acc; [now left |].
  cbn. destruct (IH (Z.max acc (f y))) as [He | (x & Hin & He)].
  - rewrite He. destruct (Z.max_spec acc (f y)) as [[_ ->] | [_ ->]].
    + right. exists y. split; [now left | reflexivity].
    + now left.
  - right. exists x. split; [now right | assumption].
Qed.

End RunningMaximum.

(** What the poster at a wall point adds to the running maximum. *)
Lemma Exercise16_loop_step (fuel : nat) (p1 s1 p2 s2 : list Z)
      (w l accumulator : Z) :
  length p1 = length p2 ->
  Z.of_nat (length (p1 ++ w :: s1)) <= Int.max ->
  Int.in_range (w - Z.quot l 4) = true ->
  Exercise16_loop (S fuel) (p1 ++ w :: s1) (p2 ++ l :: s2)
                  (Z.of_nat (length p1)) accumulator
  = Exercise16_loop fuel ((p1 ++ [w]) ++ s1) ((p2 ++ [l]) ++ s2)
                    (Z.of_nat (length (p1 ++ [w])))
                    (Z.max accumulator (w - Z.quot l 4)).
Proof.
  intros Hl Hmax Hr. rewrite length_app in Hmax. cbn [length] in Hmax.
  cbn [Exercise16_loop]. rewrite Nat2Z.id.
  rewrite (nth_error_app2 p1) by lia. rewrite (nth_error_app2 p2) by lia.
  replace (length p1 - length p2)%nat with O by lia.
  rewrite Nat.sub_diag. cbn [nth_error].
  unfold int_sub. rewrite Hr.
  destruct (Z.ltb_spec (Z.of_nat (length p1))
                       (Z.of_nat (length (p1 ++ w :: s1)))) as [_ | Hge];
    [| rewrite length_app in Hge; cbn [length] in Hge; lia].
  destruct (Z.eqb_spec (Z.of_nat (length p1)) Int.max) as [He | _]; [lia |].
  rewrite <- !app_assoc. cbn [app].
  rewrite length_app. cbn [length].
  replace (Z.of_nat (length p1 + 1)) with (Z.of_nat (length p1) + 1) by lia.
  reflexivity.
Qed.

Lemma Exercise16_loop_running_max (s1 : list Z) :
  forall p1 p2 s2 fuel accumulator,
    length p1 = length p2 -> (length s1 < fuel)%nat ->
    (length s1 <= length s2)%nat ->
    Z.of_nat (length (p1 ++ s1)) <= Int.max ->
    (forall wl, In wl (combine s1 s2) ->
                Int.in_range (fst wl - Z.quot (snd wl) 4) = true) ->
    Exercise16_loop fuel (p1 ++ s1) (p2 ++ s2) (Z.of_nat (length p1))
                    accumulator
    = Some (Done (fold_left
                    (fun a wl => Z.max a (fst wl - Z.quot (snd wl) 4))
                    (combine s1 s2) accumulator)).
Proof.
  induction s1 as [| w s1 IH]; intros p1 p2 s2 fuel acc Hl Hf Hs Hmax Hr;
    (destruct fuel as [| fuel]; [lia |]).
  - cbn [Exercise16_loop]. rewrite app_nil_r.
    now rewrite Z.ltb_irrefl.
  - destruct s2 as [| l s2]; [cbn in Hs; lia |].
    rewrite Exercise16_loop_step;
      [| assumption | assumption | apply (Hr (w, l)); now left].
    rewrite IH.
    + reflexivity.
    + rewrite !length_app. cbn. lia.
    + cbn in Hf. lia.
    + cbn in Hs. lia.
    + now rewrite <- app_assoc.
    + intros wl Hin. apply Hr. now right.
Qed.

Lemma quot4_bound (l : Z) :
  - 2 ^ 29 <= l <= 2 ^ 29 -> - 2 ^ 27 <= Z.quot l 4 <= 2 ^ 27.
Proof.
  intros Hl.
  change (- 2 ^ 27) with (Z.quot (- 2 ^ 29) 4).
  change (2 ^ 27) with (Z.quot (2 ^ 29) 4).
  split; apply Z.quot_le_mono; lia.
Qed.

(** X9: with a length for every wall point, no more than [INT_MAX] wall
    points and all numbers within [-2^29 .. 2^29], the body of
    [Exercise16] is free of undefined behaviour and its [result] is not
    negative and is at least the reach [wallPoints[i] - lengths[i] / 4 - h]
    of every poster; for a ladder height [h >= 0] it is the least such
    number. *)
Theorem Exercise16_least_reach (h : Z) (wallPoints lengths : list Z) :
  (length wallPoints <= length lengths)%nat ->
  Z.of_nat (length wallPoints) <= Int.max ->
  Forall (fun w => - 2 ^ 29 <= w <= 2 ^ 29) wallPoints ->
  Forall (fun l => - 2 ^ 29 <= l <= 2 ^ 29) lengths ->
  - 2 ^ 29 <= h <= 2 ^ 29 ->
  exists result,
    Exercise16_on h wallPoints lengths = Some (Done result) /\
    0 <= result /\
    (forall wl, In wl (combine wallPoints lengths) -> reach h wl <= result) /\
    (0 <= h ->
     forall r, 0 <= r ->
       (forall wl, In wl (combine wallPoints lengths) -> reach h wl <= r) ->
       result <= r).
Proof.
  intros Hs Hmax Hw Hl Hh.
  rewrite Forall_forall in Hw, Hl.
  assert (Hb : forall wl, In wl (combine wallPoints lengths) ->
                 - 2 ^ 29 - 2 ^ 27 <= fst wl - Z.quot (snd wl) 4
                 <= 2 ^ 29 + 2 ^ 27).
  { intros [w l] Hin. cbn [fst snd].
    pose proof (Hw w (in_combine_l _ _ _ _ Hin)).
    pose proof (quot4_bound l (Hl l (in_combine_r _ _ _ _ Hin))). lia. }
  assert (Hr : forall wl, In wl (combine wallPoints lengths) ->
                 Int.in_range (fst wl - Z.quot (snd wl) 4) = true).
  { intros wl Hin. specialize (Hb wl Hin). unfold Int.in_range.
    apply andb_true_intro. rewrite !Z.leb_le.
    unfold Int.min, Int.max. lia. }
  pose proof (running_max_ge_each (fun wl : Z * Z => fst wl - Z.quot (snd wl) 4)
                (combine wallPoints lengths) 0) as Hgee.
  pose proof (running_max_attained (fun wl : Z * Z => fst wl - Z.quot (snd wl) 4)
                (combine wallPoints lengths) 0) as Hatt.
  pose proof (running_max_ge_start (fun wl : Z * Z => fst wl - Z.quot (snd wl) 4)
                (combine wallPoints lengths) 0) as Hge0.
  cbv beta in Hgee, Hatt, Hge0.
  pose proof (Exercise16_loop_running_max wallPoints [] [] lengths
                (S (length wallPoints)) 0 eq_refl ltac:(lia) Hs Hmax Hr)
    as Hloop.
  cbn [app length Z.of_nat] in Hloop.
  unfold Exercise16_on. rewrite Hloop. clear Hloop.
  set (m := fold_left (fun a wl => Z.max a (fst wl - Z.quot (snd wl) 4))
                      (combine wallPoints lengths) 0) in *.
  assert (Hm : 0 <= m <= 2 ^ 29 + 2 ^ 27).
  { destruct Hatt as [He | (x & Hin & He)]; [lia |].
    specialize (Hb x Hin). lia. }
  unfold int_sub.
  assert (Hin : Int.in_range (m - h) = true).
  { unfold Int.in_range. apply andb_true_intro. rewrite !Z.leb_le.
    unfold Int.min, Int.max. lia. }
  rewrite Hin. exists (Z.max 0 (m - h)).
  split; [reflexivity |]. split; [lia |]. split.
  - intros wl Hwl. specialize (Hgee wl Hwl). unfold reach. lia.
  - intros Hh0 r Hr0 Hall.
    destruct Hatt as [He | (x & Hx & He)].
    + lia.
    + specialize (Hall x Hx). unfold reach in Hall. lia.
Qed.

Lemma Exercise16_least_reach_witness :
  ((length [22; 33; 19; 74]%Z <= length [2; 3; 5; 6]%Z)%nat /\
   Z.of_nat (length [22; 33; 19; 74]) <= Int.max /\
   Forall (fun w => - 2 ^ 29 <= w <= 2 ^ 29) [22; 33; 19; 74] /\
   Forall (fun l => - 2 ^ 29 <= l <= 2 ^ 29) [2; 3; 5; 6] /\
   - 2 ^ 29 <= 6 <= 2 ^ 29) /\
  exists result,
    Exercise16 = Some (Done result) /\
    0 <= result /\
    (forall wl, In wl (combine [22; 33; 19; 74] [2; 3; 5; 6]) ->
                reach 6 wl <= result) /\
    (0 <= 6 ->
     forall r, 0 <= r ->
       (forall wl, In wl (combine [22; 33; 19; 74] [2; 3; 5; 6]) ->
                   reach 6 wl <= r) ->
       result <= r).
Proof.
  assert (Hs : (length [22; 33; 19; 74]%Z <= length [2; 3; 5; 6]%Z)%nat)
    by (cbn; lia).
  assert (Hmax : Z.of_nat (length [22; 33; 19; 74]) <= Int.max)
    by discriminate.
  assert (Hw : Forall (fun w => - 2 ^ 29 <= w <= 2 ^ 29) [22; 33; 19; 74])
    by (repeat constructor; discriminate).
  assert (Hl : Forall (fun l => - 2 ^ 29 <= l <= 2 ^ 29) [2; 3; 5; 6])
    by (repeat constructor; discriminate).
  assert (Hh : - 2 ^ 29 <= 6 <= 2 ^ 29) by (split; discriminate).
  split; [exact (conj Hs (conj Hmax (conj Hw (conj Hl Hh)))) |].
  exact (Exercise16_least_reach 6 _ _ Hs Hmax Hw Hl Hh).
Defined.





(** ** [ContainerAlgorithm::Exercise8] *)

Lemma std_find_end (v : list Z) (x : Z) :
  Nat.eqb (std_find v x) (length v) = true <-> ~ In x v.
Proof.
  induction v as [| y v IH]; cbn.
  - split; [intros _ [] | reflexivity].
  - destruct (Z.eqb_spec y x) as [-> | Hne].
    + split; [discriminate | intros H; exfalso; apply H; now left].
    + cbn. rewrite IH. split.
      * intros Hn [He | Hin]; [congruence | contradiction].
      * intros Hn Hin. apply Hn. now right.
Qed.

Lemma copy_if_back_filter {A : Type} (pred : A -> bool) (src : list A) :
  forall dst, copy_if_back pred src dst = dst ++ filter pred src.
Proof.
  induction src as [| x src IH]; intros dst; cbn.
  - now rewrite app_nil_r.
  - rewrite IH. destruct (pred x); [| reflexivity].
    now rewrite <- app_assoc.
Qed.

(** X11: the vector that [Exercise8] builds holds exactly the numbers of
    [v1] that do not occur in [v2], each as often as in [v1] and in the
    order of [v1]: a number is in it if and only if it is in [v1] and not
    in [v2], and it is [v1] with the numbers of [v2] struck out. *)
Theorem Exercise8_difference (v1 v2 : list Z) :
  (forall x, In x (Exercise8_on v1 v2) <-> In x v1 /\ ~ In x v2) /\
  (forall x, ~ In x v2 ->
             count_occ Z.eq_dec (Exercise8_on v1 v2) x = count_occ Z.eq_dec v1 x) /\
  Exercise8_on v1 v2 = filter (fun x => negb (existsb (Z.eqb x) v2)) v1.
Proof.
  unfold Exercise8_on. rewrite copy_if_back_filter. cbn [app].
  assert (Hp : forall x, Nat.eqb (std_find v2 x) (length v2)
                         = negb (existsb (Z.eqb x) v2)).
  { intros x. apply eq_true_iff_eq. rewrite std_find_end, negb_true_iff.
    rewrite <- not_true_iff_false, existsb_exists.
    split.
    - intros Hn (y & Hy & He). apply Z.eqb_eq in He. subst y. contradiction.
    - intros Hn Hin. apply Hn. exists x. split; [assumption | apply Z.eqb_refl]. }
  split; [| split].
  - intros x. rewrite filter_In, std_find_end. reflexivity.
  - intros x Hx. induction v1 as [| y v1 IH]; [reflexivity |].
    cbn [filter]. destruct (Nat.eqb (std_find v2 y) (length v2)) eqn:Hy.
    + cbn [count_occ]. destruct (Z.eq_dec y x); now rewrite IH.
    + cbn [count_occ]. destruct (Z.eq_dec y x) as [-> | _]; [| exact IH].
      apply std_find_end in Hx. congruence.
  - apply filter_ext. exact Hp.
Qed.
